(** * Orb-GPU-Particles: the displacement/shading stage and the particle
      field generator of [src/scripts.js], embedded in Rocq.

    Numbers.  GLSL [float]s and JavaScript numbers are idealised as real
    numbers.  What real arithmetic cannot express, the results that are not
    finite numbers (a division by zero, [normalize] of the zero vector, the
    square root of a negative number: NaN, an infinity or a value the
    language leaves undefined), is kept explicit: a shader [float] is an
    [option R], [None] standing for "no finite value", and [None] is
    absorbing for the arithmetic, as NaN is.  The one rounding the script
    asks for itself, the conversion of the generated arrays to float32 by
    [THREE.Float32BufferAttribute], is modelled as such ([fround],
    [float32Array]). *)

From Stdlib Require Import Reals Lra Lia ZArith List String Bool.
Import ListNotations.

Open Scope R_scope.

(** ** Shader floats *)

Module GLSL.

Definition float : Type := option R.

Definition fin (x : R) : float := Some x.

Definition lift1 (f : R -> R) (a : float) : float :=
  match a with Some x => Some (f x) | None => None end.

Definition lift2 (f : R -> R -> R) (a b : float) : float :=
  match a, b with Some x, Some y => Some (f x y) | _, _ => None end.

Definition fadd : float -> float -> float := lift2 Rplus.
Definition fsub : float -> float -> float := lift2 Rminus.
Definition fmul : float -> float -> float := lift2 Rmult.
Definition fneg : float -> float := lift1 Ropp.

(** [a / b]: no finite value when the divisor is zero. *)
Definition fdiv (a b : float) : float :=
  match a, b with
  | Some x, Some y => if Req_dec_T y 0 then None else Some (x / y)
  | _, _ => None
  end.

(** [sqrt]: no finite value on a negative argument. *)
Definition fsqrt (a : float) : float :=
  match a with
  | Some x => if Rlt_dec x 0 then None else Some (sqrt x)
  | None => None
  end.

Definition fsin : float -> float := lift1 sin.
Definition fcos : float -> float := lift1 cos.
Definition fmin : float -> float -> float := lift2 Rmin.
Definition fmax : float -> float -> float := lift2 Rmax.

(** [a < b]: a comparison with a non-finite operand is false. *)
Definition flt (a b : float) : bool :=
  match a, b with
  | Some x, Some y => if Rlt_dec x y then true else false
  | _, _ => false
  end.

Declare Scope float_scope.
Delimit Scope float_scope with fl.
Bind Scope float_scope with float.
Infix "+" := fadd : float_scope.
Infix "-" := fsub : float_scope.
Infix "*" := fmul : float_scope.
Infix "/" := fdiv : float_scope.
Notation "- a" := (fneg a) : float_scope.
Infix "<?" := flt (at level 70) : float_scope.

(** ** Vectors and matrices *)

Record vec2 := Vec2 { x2 : float; y2 : float }.
Record vec3 := Vec3 { x3 : float; y3 : float; z3 : float }.
Record vec4 := Vec4 { x4 : float; y4 : float; z4 : float; w4 : float }.

(** Finite vectors: the values the host program hands to the shader. *)
Record rvec2 := RVec2 { rx2 : R; ry2 : R }.
Record rvec3 := RVec3 { rx3 : R; ry3 : R; rz3 : R }.

Definition vec2_of (v : rvec2) : vec2 := Vec2 (fin (rx2 v)) (fin (ry2 v)).
Definition vec3_of (v : rvec3) : vec3 :=
  Vec3 (fin (rx3 v)) (fin (ry3 v)) (fin (rz3 v)).

(** [vec4(v, w)] *)
Definition vec4_of (v : vec3) (w : float) : vec4 :=
  Vec4 (x3 v) (y3 v) (z3 v) w.

(** A 4x4 matrix, given by its rows. *)
Record row4 := Row4 { c0 : R; c1 : R; c2 : R; c3 : R }.
Record mat4 := Mat4 { r0 : row4; r1 : row4; r2 : row4; r3 : row4 }.

Definition row_scale (k : R) (r : row4) : row4 :=
  Row4 (k * c0 r) (k * c1 r) (k * c2 r) (k * c3 r).

Definition row_add (r s : row4) : row4 :=
  Row4 (c0 r + c0 s) (c1 r + c1 s) (c2 r + c2 s) (c3 r + c3 s).

(** Row [r] of [A] times the matrix [B]. *)
Definition row_mat (r : row4) (B : mat4) : row4 :=
  row_add (row_add (row_scale (c0 r) (r0 B)) (row_scale (c1 r) (r1 B)))
          (row_add (row_scale (c2 r) (r2 B)) (row_scale (c3 r) (r3 B))).

(** [A * B] on matrices. *)
Definition mat_mul (A B : mat4) : mat4 :=
  Mat4 (row_mat (r0 A) B) (row_mat (r1 A) B)
       (row_mat (r2 A) B) (row_mat (r3 A) B).

Definition row_vec (r : row4) (v : vec4) : float :=
  (fin (c0 r) * x4 v + fin (c1 r) * y4 v
   + fin (c2 r) * z4 v + fin (c3 r) * w4 v)%fl.

(** [M * v] on a matrix and a column vector. *)
Definition mat_vec (M : mat4) (v : vec4) : vec4 :=
  Vec4 (row_vec (r0 M) v) (row_vec (r1 M) v)
       (row_vec (r2 M) v) (row_vec (r3 M) v).

Definition vsub2 (a b : vec2) : vec2 :=
  Vec2 (x2 a - x2 b)%fl (y2 a - y2 b)%fl.

Definition vscale2 (a : vec2) (k : float) : vec2 :=
  Vec2 (x2 a * k)%fl (y2 a * k)%fl.

(** ** Built-in functions, as the GLSL specification defines them *)

(** [length(v) = sqrt(v.x^2 + v.y^2)] *)
Definition length (v : vec2) : float :=
  fsqrt (x2 v * x2 v + y2 v * y2 v)%fl.

(** [normalize(v) = v / length(v)]: not defined on the zero vector. *)
Definition normalize (v : vec2) : vec2 :=
  Vec2 (x2 v / length v)%fl (y2 v / length v)%fl.

(** [mix(a, b, t) = a * (1 - t) + b * t] *)
Definition mix (a b t : float) : float :=
  (a * (fin 1 - t) + b * t)%fl.

Definition mix3 (a b : vec3) (t : float) : vec3 :=
  Vec3 (mix (x3 a) (x3 b) t) (mix (y3 a) (y3 b) t) (mix (z3 a) (z3 b) t).

(** [clamp(x, lo, hi) = min(max(x, lo), hi)] *)
Definition clamp (x lo hi : float) : float := fmin (fmax x lo) hi.

(** [smoothstep(e0, e1, x)]: [t = clamp((x - e0) / (e1 - e0), 0, 1)],
    result [t * t * (3 - 2 * t)]. *)
Definition smoothstep (e0 e1 x : float) : float :=
  let t := clamp ((x - e0) / (e1 - e0))%fl (fin 0) (fin 1) in
  (t * t * (fin 3 - fin 2 * t))%fl.

End GLSL.

Import GLSL.

(** ** The vertex stage ([vertexShader], scripts.js lines 29-68) *)

(** Per-frame uniforms: the six the shader declares and the two camera
    transforms the rendering library supplies. *)
Record Uniforms := {
  uTime : R;
  uMouse : rvec2;
  uInteractionRadius : R;
  uRepulsionStrength : R;
  uColor1 : rvec3;
  uColor2 : rvec3;
  projectionMatrix : mat4;
  modelViewMatrix : mat4
}.

(** Per-particle attributes of the geometry.  [position] is set by
    [createParticles] and is available to the shader, which never reads
    it. *)
Record Attributes := {
  position : rvec3;
  restingPosition : rvec3;
  aRandom : R
}.

Record VertexOutput := {
  gl_Position : vec4;
  gl_PointSize : float;
  vColor : vec3
}.

(** lines 47-50, as a function of the three values the branch reads *)
Definition repulsionMagnitude
  (distance uInteractionRadius uRepulsionStrength : float) : float :=
  if (distance <? uInteractionRadius)%fl
  then ((fin 1 - distance / uInteractionRadius) * uRepulsionStrength)%fl
  else fin 0.

(** lines 58-60: the breathing motion, as a function of the position it is
    added to *)
Definition breathe (uTime aRandom : float) (p : vec3) : vec3 :=
  Vec3 (x3 p + fsin (uTime * fin 0.5 + aRandom * fin 10) * fin 0.01)%fl
       (y3 p + fcos (uTime * fin 0.5 + aRandom * fin 10) * fin 0.01)%fl
       (z3 p + fsin (uTime * fin 0.5 + aRandom * fin 10) * fin 0.01)%fl.

(** line 66: the interpolation factor *)
Definition colorFactor (restY : float) : float :=
  ((restY + fin 1.5) / fin 3)%fl.

Section VertexStage.

Variable u : Uniforms.
Variable a : Attributes.

(** line 43 *)
Definition screenPos : vec4 :=
  mat_vec (mat_mul (projectionMatrix u) (modelViewMatrix u))
          (vec4_of (vec3_of (restingPosition a)) (fin 1)).

(** line 44 *)
Definition screenXY : vec2 :=
  Vec2 (x4 screenPos / w4 screenPos)%fl (y4 screenPos / w4 screenPos)%fl.

(** line 46 *)
Definition distance : float :=
  length (vsub2 screenXY (vec2_of (uMouse u))).

(** lines 47-50 *)
Definition repulsionStrength : float :=
  repulsionMagnitude distance
    (fin (uInteractionRadius u)) (fin (uRepulsionStrength u)).

(** line 52 *)
Definition direction : vec2 :=
  normalize (vsub2 screenXY (vec2_of (uMouse u))).

(** line 53 *)
Definition repulsion : vec2 := vscale2 direction repulsionStrength.

(** lines 55-56: [finalPosition] after [finalPosition.xy += repulsion] *)
Definition repelledPosition : vec3 :=
  let p := vec3_of (restingPosition a) in
  Vec3 (x3 p + x2 repulsion)%fl (y3 p + y2 repulsion)%fl (z3 p).

(** lines 55-60 *)
Definition finalPosition : vec3 :=
  breathe (fin (uTime u)) (fin (aRandom a)) repelledPosition.

(** line 62 *)
Definition modelViewPosition : vec4 :=
  mat_vec (modelViewMatrix u) (vec4_of finalPosition (fin 1)).

(** lines 63-66 *)
Definition vertexShader : VertexOutput :=
  {| gl_Position := mat_vec (projectionMatrix u) modelViewPosition;
     gl_PointSize := (fin 4 * (fin 1 / - z4 modelViewPosition))%fl;
     vColor := mix3 (vec3_of (uColor1 u)) (vec3_of (uColor2 u))
                    (colorFactor (fin (ry3 (restingPosition a)))) |}.

End VertexStage.

(** The colour of line 66, as a finite vector. *)
Definition restColor (c1 c2 : rvec3) (y : R) : rvec3 :=
  let t := (y + 1.5) / 3 in
  RVec3 (rx3 c1 * (1 - t) + rx3 c2 * t)
        (ry3 c1 * (1 - t) + ry3 c2 * t)
        (rz3 c1 * (1 - t) + rz3 c2 * t).

(** ** The fragment stage ([fragmentShader], scripts.js lines 70-83) *)

(** line 74 *)
Definition dist (gl_PointCoord : rvec2) : float :=
  length (vsub2 (vec2_of gl_PointCoord) (Vec2 (fin 0.5) (fin 0.5))).

(** line 75 *)
Definition alpha (gl_PointCoord : rvec2) : float :=
  (fin 1 - smoothstep (fin 0.45) (fin 0.5) (dist gl_PointCoord))%fl.

(** [None] is [discard]; otherwise [gl_FragColor = vec4(vColor, alpha)]. *)
Definition fragmentShader (vColor : vec3) (gl_PointCoord : rvec2) : option vec4 :=
  if (alpha gl_PointCoord <? fin 0.01)%fl then None
  else Some (vec4_of vColor (alpha gl_PointCoord)).

(** ** The earlier revision of the vertex stage (src/unnamed/part_000,
       lines 24-73): radius and strength are the constants 0.8 and 0.5, the
       colour comes from the rest position directly. *)

Module Part000.

Section VertexStage.

Variable u : Uniforms.
Variable a : Attributes.

(** lines 42-46 *)
Definition repulsionStrength : float :=
  let interactionRadius := fin 0.8 in
  repulsionMagnitude (distance u a) interactionRadius (fin 0.5).

(** lines 49-50 *)
Definition repulsion : vec2 := vscale2 (direction u a) repulsionStrength.

(** lines 53-54 *)
Definition repelledPosition : vec3 :=
  let p := vec3_of (restingPosition a) in
  Vec3 (x3 p + x2 repulsion)%fl (y3 p + y2 repulsion)%fl (z3 p).

(** lines 53-59 *)
Definition finalPosition : vec3 :=
  breathe (fin (uTime u)) (fin (aRandom a)) repelledPosition.

(** line 62 *)
Definition modelViewPosition : vec4 :=
  mat_vec (modelViewMatrix u) (vec4_of finalPosition (fin 1)).

(** lines 63-71 *)
Definition vertexShader : VertexOutput :=
  {| gl_Position := mat_vec (projectionMatrix u) modelViewPosition;
     gl_PointSize := (fin 4 * (fin 1 / - z4 modelViewPosition))%fl;
     vColor := Vec3 (fin 0.5 + fin (rx3 (restingPosition a)))%fl
                    (fin 0.5 + fin (ry3 (restingPosition a)))%fl
                    (fin 0.8) |}.

End VertexStage.

End Part000.

(** ** Buffers and geometries, as [createParticles] uses them *)

(** [new THREE.Float32BufferAttribute(array, itemSize)]: [array] is the
    JavaScript array the constructor is given; what the attribute keeps of
    it, [new Float32Array(array)], is [float32Array] below. *)
Record BufferAttribute := {
  array : list R;
  itemSize : nat
}.

(** The number of items of an attribute: [array.length / itemSize]. *)
Definition count (b : BufferAttribute) : nat :=
  (List.length (array b) / itemSize b)%nat.

(** Item [i] of the array given to an attribute: components
    [i * itemSize], [+ 1], [+ 2]. *)
Definition getX (b : BufferAttribute) (i : nat) : R :=
  nth (i * itemSize b) (array b) 0.
Definition getY (b : BufferAttribute) (i : nat) : R :=
  nth (i * itemSize b + 1) (array b) 0.
Definition getZ (b : BufferAttribute) (i : nat) : R :=
  nth (i * itemSize b + 2) (array b) 0.
Definition getXYZ (b : BufferAttribute) (i : nat) : rvec3 :=
  RVec3 (getX b i) (getY b i) (getZ b i).

(** *** Float32 storage

    [new Float32Array(array)] rounds every number to the nearest float32,
    ties to the even mantissa: 24 bits of precision, exponents from -126
    (below it the spacing stays [2 ^ -149]), and no finite value from
    [2 ^ 128] on. *)

(** The integer nearest to [t], the even one on a tie. *)
Definition nearestEven (t : R) : Z :=
  let n := Int_part t in
  let f := t - IZR n in
  if Rlt_dec f (/ 2) then n
  else if Rlt_dec (/ 2) f then (n + 1)%Z
  else if Z.even n then n else (n + 1)%Z.

(** The binary exponent of [x <> 0], not below that of the subnormals. *)
Definition exponent32 (x : R) : Z :=
  Z.max (Int_part (ln (Rabs x) / ln 2)) (-126).

(** The spacing of the float32 numbers around [x]. *)
Definition ulp32 (x : R) : R := powerRZ 2 (exponent32 x - 23).

(** [Math.fround(x)] *)
Definition fround (x : R) : float :=
  if Req_dec_T x 0 then fin 0
  else
    let y := IZR (nearestEven (x / ulp32 x)) * ulp32 x in
    if Rlt_dec (Rabs y) (powerRZ 2 128) then fin y else None.

(** What the attribute stores. *)
Definition float32Array (b : BufferAttribute) : list float :=
  map fround (array b).

(** Item [i] of the attribute as stored: what [getX], [getY] and [getZ] of
    the rendering library read, and what the vertex stage is fed. *)
Definition storedX (b : BufferAttribute) (i : nat) : float :=
  nth (i * itemSize b) (float32Array b) None.

(** A [THREE.BufferGeometry]: its named attributes, and whether [dispose]
    has been called on it. *)
Record Geometry := {
  attributes : list (string * BufferAttribute);
  g_disposed : bool
}.

Fixpoint assoc_set {A : Type} (k : string) (v : A) (l : list (string * A))
  : list (string * A) :=
  match l with
  | [] => [(k, v)]
  | (k', v') :: l' =>
      if String.eqb k k' then (k, v) :: l' else (k', v') :: assoc_set k v l'
  end.

Fixpoint assoc_get {A : Type} (k : string) (l : list (string * A)) : option A :=
  match l with
  | [] => None
  | (k', v') :: l' => if String.eqb k k' then Some v' else assoc_get k l'
  end.

(** [geometry.setAttribute(name, attribute)] *)
Definition setAttribute (name : string) (b : BufferAttribute) (g : Geometry)
  : Geometry :=
  {| attributes := assoc_set name b (attributes g);
     g_disposed := g_disposed g |}.

Definition getAttribute (name : string) (g : Geometry) : option BufferAttribute :=
  assoc_get name (attributes g).

(** The attributes of vertex [i], from the arrays [createParticles] hands
    to the three attributes; the draw call feeds [vertexShader] what the
    attributes store of them ([storedXYZ], [storedX]). *)
Definition vertexAttributes (g : Geometry) (i : nat) : option Attributes :=
  match getAttribute "position" g, getAttribute "restingPosition" g,
        getAttribute "aRandom" g with
  | Some p, Some r, Some s =>
      Some {| position := getXYZ p i;
              restingPosition := getXYZ r i;
              aRandom := getX s i |}
  | _, _, _ => None
  end.

(** ** The particle field generator ([createParticles], scripts.js
       lines 85-147) *)

(** line 87 *)
Definition arrangementRadius : R := 1.5.

(** [Math.cbrt] *)
Definition cbrt (x : R) : R :=
  if Req_dec_T x 0 then 0
  else if Rlt_dec 0 x then Rpower x (/ 3) else - Rpower (- x) (/ 3).

(** The local arrays of [createParticles] (lines 98-100). *)
Record Arrays := {
  positions : list R;
  restingPositions : list R;
  randoms : list R
}.

Section Generator.

(** [random k] is what the [k]-th call of [Math.random()] returns. *)
Variable random : nat -> R.

(** lines 103-109: the position sampled from the draws [k], [k+1], [k+2] *)
Definition samplePosition (k : nat) : rvec3 :=
  let theta := random k * 2 * PI in
  let phi := acos (random (k + 1) * 2 - 1) in
  let r := arrangementRadius * cbrt (random (k + 2)) in
  let x := r * sin phi * cos theta in
  let y := r * sin phi * sin theta in
  let z := r * cos phi in
  RVec3 x y z.

(** lines 103-113: one iteration, [k] calls of [Math.random()] made so far *)
Definition loopBody (k : nat) (b : Arrays) : nat * Arrays :=
  let p := samplePosition k in
  (k + 4,
   {| positions := positions b ++ [rx3 p; ry3 p; rz3 p];
      restingPositions := restingPositions b ++ [rx3 p; ry3 p; rz3 p];
      randoms := randoms b ++ [random (k + 3)] |})%nat.

(** lines 102-114: [n] iterations *)
Fixpoint loop (n : nat) (k : nat) (b : Arrays) : nat * Arrays :=
  match n with
  | O => (k, b)
  | S n' => let (k', b') := loopBody k b in loop n' k' b'
  end.

End Generator.

(** ** The host program: its objects, its globals and its callbacks *)

(** A [THREE.ShaderMaterial] with its uniforms (lines 129-143); [uMouse]
    holds the global [mouse] object itself.  Colours are kept as the strings
    they are built from. *)
Record Material := {
  m_uTime : R;
  m_uInteractionRadius : R;
  m_uRepulsionStrength : R;
  m_uColor1 : string;
  m_uColor2 : string;
  m_disposed : bool
}.

(** A [THREE.Points]: references to its geometry and material. *)
Record Points := {
  p_geometry : nat;
  p_material : nat;
  rotation_y : R
}.

(** The objects are kept in stores, and referred to by their index there: the
    globals [geometry], [material] and [particleOrb] (line 88) and the
    scene's children hold references. *)
Record World := {
  geometries : list Geometry;
  materials : list Material;
  objects : list Points;
  scene : list nat;
  geometry : option nat;
  material : option nat;
  particleOrb : option nat;
  PARTICLE_COUNT : Z;
  mouse : rvec2;
  randomCalls : nat
}.

(** What the program does to the rendering library, in program order. *)
Inductive event :=
| SceneRemove (o : nat)
| GeometryDispose (g : nat)
| MaterialDispose (m : nat)
| GeometryNew (g : nat)
| AttributeSet (g : nat) (name : string)
| MaterialNew (m : nat)
| PointsNew (o g m : nat)
| SceneAdd (o : nat)
| Render.

(** A log entry: the event and the world right after it. *)
Definition entry : Type := event * World.

(** A run ends normally, or with the [TypeError] of a property access on
    [undefined]. *)
Inductive Result (A : Type) : Type :=
| Ok (a : A) (w : World) (log : list entry)
| TypeError (log : list entry).
Arguments Ok {A} a w log.
Arguments TypeError {A} log.

Definition Prog (A : Type) : Type := World -> Result A.

Definition ret {A : Type} (a : A) : Prog A := fun w => Ok a w [].

Definition bind {A B : Type} (m : Prog A) (k : A -> Prog B) : Prog B :=
  fun w =>
    match m w with
    | Ok a w1 l1 =>
        match k a w1 with
        | Ok b w2 l2 => Ok b w2 (l1 ++ l2)
        | TypeError l2 => TypeError (l1 ++ l2)
        end
    | TypeError l1 => TypeError l1
    end.

Notation "x <- m ;; k" := (bind m (fun x => k))
  (at level 61, m at next level, right associativity).
Notation "m ;; k" := (bind m (fun _ => k))
  (at level 61, right associativity).

Definition get {A : Type} (f : World -> A) : Prog A := fun w => Ok (f w) w [].

(** A reference held by a global: [undefined] cannot be dereferenced. *)
Definition deref (f : World -> option nat) : Prog nat :=
  fun w => match f w with Some i => Ok i w [] | None => TypeError [] end.

Definition modify (f : World -> World) : Prog unit := fun w => Ok tt (f w) [].

Definition emit (e : event) (f : World -> World) : Prog unit :=
  fun w => Ok tt (f w) [(e, f w)].

Fixpoint update {A : Type} (i : nat) (f : A -> A) (l : list A) : list A :=
  match l, i with
  | [], _ => []
  | x :: l', O => f x :: l'
  | x :: l', S i' => x :: update i' f l'
  end.

Definition set_geometries (f : list Geometry -> list Geometry) (w : World) : World :=
  {| geometries := f (geometries w); materials := materials w;
     objects := objects w; scene := scene w; geometry := geometry w;
     material := material w; particleOrb := particleOrb w;
     PARTICLE_COUNT := PARTICLE_COUNT w; mouse := mouse w;
     randomCalls := randomCalls w |}.

Definition set_materials (f : list Material -> list Material) (w : World) : World :=
  {| geometries := geometries w; materials := f (materials w);
     objects := objects w; scene := scene w; geometry := geometry w;
     material := material w; particleOrb := particleOrb w;
     PARTICLE_COUNT := PARTICLE_COUNT w; mouse := mouse w;
     randomCalls := randomCalls w |}.

Definition set_objects (f : list Points -> list Points) (w : World) : World :=
  {| geometries := geometries w; materials := materials w;
     objects := f (objects w); scene := scene w; geometry := geometry w;
     material := material w; particleOrb := particleOrb w;
     PARTICLE_COUNT := PARTICLE_COUNT w; mouse := mouse w;
     randomCalls := randomCalls w |}.

Definition set_scene (f : list nat -> list nat) (w : World) : World :=
  {| geometries := geometries w; materials := materials w;
     objects := objects w; scene := f (scene w); geometry := geometry w;
     material := material w; particleOrb := particleOrb w;
     PARTICLE_COUNT := PARTICLE_COUNT w; mouse := mouse w;
     randomCalls := randomCalls w |}.

Definition set_geometry (g : option nat) (w : World) : World :=
  {| geometries := geometries w; materials := materials w;
     objects := objects w; scene := scene w; geometry := g;
     material := material w; particleOrb := particleOrb w;
     PARTICLE_COUNT := PARTICLE_COUNT w; mouse := mouse w;
     randomCalls := randomCalls w |}.

Definition set_material (m : option nat) (w : World) : World :=
  {| geometries := geometries w; materials := materials w;
     objects := objects w; scene := scene w; geometry := geometry w;
     material := m; particleOrb := particleOrb w;
     PARTICLE_COUNT := PARTICLE_COUNT w; mouse := mouse w;
     randomCalls := randomCalls w |}.

Definition set_particleOrb (o : option nat) (w : World) : World :=
  {| geometries := geometries w; materials := materials w;
     objects := objects w; scene := scene w; geometry := geometry w;
     material := material w; particleOrb := o;
     PARTICLE_COUNT := PARTICLE_COUNT w; mouse := mouse w;
     randomCalls := randomCalls w |}.

Definition set_PARTICLE_COUNT (n : Z) (w : World) : World :=
  {| geometries := geometries w; materials := materials w;
     objects := objects w; scene := scene w; geometry := geometry w;
     material := material w; particleOrb := particleOrb w;
     PARTICLE_COUNT := n; mouse := mouse w;
     randomCalls := randomCalls w |}.

Definition set_mouse (v : rvec2) (w : World) : World :=
  {| geometries := geometries w; materials := materials w;
     objects := objects w; scene := scene w; geometry := geometry w;
     material := material w; particleOrb := particleOrb w;
     PARTICLE_COUNT := PARTICLE_COUNT w; mouse := v;
     randomCalls := randomCalls w |}.

Definition set_randomCalls (k : nat) (w : World) : World :=
  {| geometries := geometries w; materials := materials w;
     objects := objects w; scene := scene w; geometry := geometry w;
     material := material w; particleOrb := particleOrb w;
     PARTICLE_COUNT := PARTICLE_COUNT w; mouse := mouse w;
     randomCalls := k |}.

(** *** The calls of [createParticles] into the rendering library *)

(** [scene.remove(particleOrb)] *)
Definition scene_remove (o : nat) : Prog unit :=
  emit (SceneRemove o) (set_scene (List.remove Nat.eq_dec o)).

Definition dispose_geometry (g : Geometry) : Geometry :=
  {| attributes := attributes g; g_disposed := true |}.

Definition dispose_material (m : Material) : Material :=
  {| m_uTime := m_uTime m;
     m_uInteractionRadius := m_uInteractionRadius m;
     m_uRepulsionStrength := m_uRepulsionStrength m;
     m_uColor1 := m_uColor1 m; m_uColor2 := m_uColor2 m;
     m_disposed := true |}.

(** [geometry.dispose()] *)
Definition geometry_dispose : Prog unit :=
  g <- deref geometry ;;
  emit (GeometryDispose g) (set_geometries (update g dispose_geometry)).

(** [material.dispose()] *)
Definition material_dispose : Prog unit :=
  m <- deref material ;;
  emit (MaterialDispose m) (set_materials (update m dispose_material)).

(** [geometry = new THREE.BufferGeometry()] *)
Definition new_BufferGeometry : Prog unit :=
  gs <- get geometries ;;
  let g := List.length gs in
  emit (GeometryNew g)
       (fun w => set_geometry (Some g)
         (set_geometries
            (fun l => l ++ [{| attributes := []; g_disposed := false |}]) w)).

(** [geometry.setAttribute(name, new THREE.Float32BufferAttribute(array, itemSize))] *)
Definition geometry_setAttribute (name : string) (arr : list R) (size : nat)
  : Prog unit :=
  g <- deref geometry ;;
  emit (AttributeSet g name)
       (set_geometries
          (update g (setAttribute name {| array := arr; itemSize := size |}))).

(** [material = new THREE.ShaderMaterial({...})], lines 129-143 *)
Definition new_ShaderMaterial : Prog unit :=
  ms <- get materials ;;
  let m := List.length ms in
  emit (MaterialNew m)
       (fun w => set_material (Some m)
         (set_materials
            (fun l => l ++ [{| m_uTime := 0;
                               m_uInteractionRadius := 0.8;
                               m_uRepulsionStrength := 0.5;
                               m_uColor1 := "#ff0080";
                               m_uColor2 := "#00ffff";
                               m_disposed := false |}]) w)).

(** [particleOrb = new THREE.Points(geometry, material)] *)
Definition new_Points : Prog unit :=
  g <- deref geometry ;;
  m <- deref material ;;
  os <- get objects ;;
  let o := List.length os in
  emit (PointsNew o g m)
       (fun w => set_particleOrb (Some o)
         (set_objects
            (fun l => l ++ [{| p_geometry := g; p_material := m;
                               rotation_y := 0 |}]) w)).

(** [scene.add(particleOrb)] *)
Definition scene_add : Prog unit :=
  o <- deref particleOrb ;;
  emit (SceneAdd o) (set_scene (fun l => l ++ [o])).

Section Host.

Variable random : nat -> R.

(** lines 98-114: fill the three local arrays *)
Definition fillArrays : Prog Arrays :=
  n <- get PARTICLE_COUNT ;;
  k <- get randomCalls ;;
  let (k', b) :=
    loop random (Z.to_nat n) k
         {| positions := []; restingPositions := []; randoms := [] |} in
  modify (set_randomCalls k') ;;
  ret b.

(** lines 90-147 *)
Definition createParticles : Prog unit :=
  (o <- get particleOrb ;;
   match o with
   | Some o =>
       scene_remove o ;;
       geometry_dispose ;;
       material_dispose
   | None => ret tt
   end) ;;
  new_BufferGeometry ;;
  b <- fillArrays ;;
  geometry_setAttribute "position" (positions b) 3 ;;
  geometry_setAttribute "restingPosition" (restingPositions b) 3 ;;
  geometry_setAttribute "aRandom" (randoms b) 1 ;;
  new_ShaderMaterial ;;
  new_Points ;;
  scene_add.

Definition with_uTime (t : R) (m : Material) : Material :=
  {| m_uTime := t;
     m_uInteractionRadius := m_uInteractionRadius m;
     m_uRepulsionStrength := m_uRepulsionStrength m;
     m_uColor1 := m_uColor1 m; m_uColor2 := m_uColor2 m;
     m_disposed := m_disposed m |}.

Definition with_uInteractionRadius (r : R) (m : Material) : Material :=
  {| m_uTime := m_uTime m;
     m_uInteractionRadius := r;
     m_uRepulsionStrength := m_uRepulsionStrength m;
     m_uColor1 := m_uColor1 m; m_uColor2 := m_uColor2 m;
     m_disposed := m_disposed m |}.

Definition with_uRepulsionStrength (r : R) (m : Material) : Material :=
  {| m_uTime := m_uTime m;
     m_uInteractionRadius := m_uInteractionRadius m;
     m_uRepulsionStrength := r;
     m_uColor1 := m_uColor1 m; m_uColor2 := m_uColor2 m;
     m_disposed := m_disposed m |}.

Definition with_uColor1 (c : string) (m : Material) : Material :=
  {| m_uTime := m_uTime m;
     m_uInteractionRadius := m_uInteractionRadius m;
     m_uRepulsionStrength := m_uRepulsionStrength m;
     m_uColor1 := c; m_uColor2 := m_uColor2 m;
     m_disposed := m_disposed m |}.

Definition with_uColor2 (c : string) (m : Material) : Material :=
  {| m_uTime := m_uTime m;
     m_uInteractionRadius := m_uInteractionRadius m;
     m_uRepulsionStrength := m_uRepulsionStrength m;
     m_uColor1 := m_uColor1 m; m_uColor2 := c;
     m_disposed := m_disposed m |}.

Definition with_rotation_y (r : R) (p : Points) : Points :=
  {| p_geometry := p_geometry p; p_material := p_material p;
     rotation_y := r |}.

(** lines 205-214; [uMouse.value.copy(mouse)] copies the global [mouse]
    onto itself, and [renderer.render] changes nothing in this world. *)
Definition animate (elapsedTime : R) : Prog unit :=
  m <- deref material ;;
  modify (set_materials (update m (with_uTime elapsedTime))) ;;
  o <- deref particleOrb ;;
  modify (set_objects (update o (with_rotation_y (elapsedTime * 0.05)))) ;;
  emit Render (fun w => w).

(** What the browser and the control panel call back into. *)
Inductive callback :=
| Frame (elapsedTime : R)
| MouseMove (clientX clientY innerWidth innerHeight : R)
| MouseLeave
| ParticleCountChange (particleCount : Z)
| Color1Change (color1 : string)
| Color2Change (color2 : string)
| InteractionRadiusChange (interactionRadius : R)
| RepulsionStrengthChange (repulsionStrength : R).

(** The handlers of lines 20-26, 164-200 and 205. *)
Definition handle (c : callback) : Prog unit :=
  match c with
  | Frame t => animate t
  | MouseMove clientX clientY innerWidth innerHeight =>
      modify (set_mouse (RVec2 (clientX / innerWidth * 2 - 1)
                               (- (clientY / innerHeight) * 2 + 1)))
  | MouseLeave => modify (set_mouse (RVec2 0 0))
  | ParticleCountChange n =>
      modify (set_PARTICLE_COUNT n) ;;
      createParticles
  | Color1Change c =>
      m <- deref material ;;
      modify (set_materials (update m (with_uColor1 c)))
  | Color2Change c =>
      m <- deref material ;;
      modify (set_materials (update m (with_uColor2 c)))
  | InteractionRadiusChange r =>
      m <- deref material ;;
      modify (set_materials (update m (with_uInteractionRadius r)))
  | RepulsionStrengthChange r =>
      m <- deref material ;;
      modify (set_materials (update m (with_uRepulsionStrength r)))
  end.

Fixpoint handleAll (cs : list callback) : Prog unit :=
  match cs with
  | [] => ret tt
  | c :: cs' => handle c ;; handleAll cs'
  end.

(** The script itself: [createParticles()] at line 149 and [animate()] at
    line 224, then whatever callbacks arrive. *)
Definition run (elapsedTime : R) (cs : list callback) : Prog unit :=
  createParticles ;;
  animate elapsedTime ;;
  handleAll cs.

End Host.

(** The globals when the script starts (lines 19, 86, 88). *)
Definition initial : World :=
  {| geometries := []; materials := []; objects := []; scene := [];
     geometry := None; material := None; particleOrb := None;
     PARTICLE_COUNT := 100000; mouse := RVec2 0 0; randomCalls := 0 |}.

(** *** What a draw call sees, and what is live *)

(** The geometry a scene child refers to. *)
Definition fieldOf (w : World) (o : nat) : option Geometry :=
  match nth_error (objects w) o with
  | Some p => nth_error (geometries w) (p_geometry p)
  | None => None
  end.

(** The fields [renderer.render(scene, camera)] reads. *)
Definition drawn (w : World) : list (option Geometry) :=
  map (fieldOf w) (scene w).

Definition isLive (g : Geometry) : bool := negb (g_disposed g).

(** The number of fields that are created and not disposed. *)
Definition liveFields (w : World) : nat :=
  List.length (filter isLive (geometries w)).

Definition hasItems (name : string) (size n : nat) (g : Geometry) : bool :=
  match getAttribute name g with
  | Some b =>
      Nat.eqb (itemSize b) size && Nat.eqb (List.length (array b)) (n * size)
  | None => false
  end.

(** A field of [n] particles, with its three attributes, not disposed. *)
Definition fullyBuilt (n : nat) (g : Geometry) : bool :=
  isLive g && hasItems "position" 3 n g
  && hasItems "restingPosition" 3 n g && hasItems "aRandom" 1 n g.

(** The order of the specification: a field is released only after a new
    one has been added to the scene. *)
Fixpoint releaseAfterSwap (swapped : bool) (l : list event) : bool :=
  match l with
  | [] => true
  | SceneAdd _ :: l' => releaseAfterSwap true l'
  | GeometryDispose _ :: l' => swapped && releaseAfterSwap swapped l'
  | _ :: l' => releaseAfterSwap swapped l'
  end.

(** ** The camera of the script, and the frame and particle at its centre *)

(** The projection of a [THREE.PerspectiveCamera] (lines 3-8): focal
    factor [f], aspect ratio, and the two depth coefficients. *)
Definition perspective (f aspect zz zw : R) : mat4 :=
  Mat4 (Row4 (f / aspect) 0 0 0) (Row4 0 f 0 0)
       (Row4 0 0 zz zw) (Row4 0 0 (-1) 0).

(** The model-view transform of the orb: rotated by [angle] about the y
    axis (line 211), seen from the camera at [z = 3.5] (line 16). *)
Definition orbModelView (angle : R) : mat4 :=
  Mat4 (Row4 (cos angle) 0 (sin angle) 0) (Row4 0 1 0 0)
       (Row4 (- sin angle) 0 (cos angle) (-3.5)) (Row4 0 0 0 1).

(** A frame with the cursor at the centre of the screen, as at start-up and
    after [mouseleave], and a particle at the centre of the orb, as
    generated when the radius draw of [Math.random()] is [0]. *)
Definition centredFrame (time rad s : R) (c1 c2 : rvec3)
  (f aspect zz zw angle : R) : Uniforms :=
  {| uTime := time; uMouse := RVec2 0 0;
     uInteractionRadius := rad; uRepulsionStrength := s;
     uColor1 := c1; uColor2 := c2;
     projectionMatrix := perspective f aspect zz zw;
     modelViewMatrix := orbModelView angle |}.

Definition centreParticle (seed : R) : Attributes :=
  {| position := RVec3 0 0 0; restingPosition := RVec3 0 0 0;
     aRandom := seed |}.

(** The second end-to-end scenario of the specification: the cursor at
    (0.1, 0.1), default radius and strength, and a particle whose rest
    position projects to (0.15, 0.1). *)
Definition scenarioFrame : Uniforms :=
  {| uTime := 0; uMouse := RVec2 0.1 0.1;
     uInteractionRadius := 0.8; uRepulsionStrength := 0.5;
     uColor1 := RVec3 1 0 0.5; uColor2 := RVec3 0 1 1;
     projectionMatrix := perspective 1 1 (-1) (-0.2);
     modelViewMatrix := orbModelView 0 |}.

Definition scenarioParticle : Attributes :=
  {| position := RVec3 0.525 0.35 0; restingPosition := RVec3 0.525 0.35 0;
     aRandom := 0 |}.

Definition emptyGeometry : Geometry := {| attributes := []; g_disposed := false |}.

(** ** Closed forms of what the loop pushes, and assertions on worlds *)

Definition coords (p : rvec3) : list R := [rx3 p; ry3 p; rz3 p].

Definition norm (p : rvec3) : R :=
  sqrt (rx3 p * rx3 p + ry3 p * ry3 p + rz3 p * rz3 p).

Section ClosedForms.

Variable random : nat -> R.

(** The coordinates pushed by [n] iterations that start at draw [k]. *)
Fixpoint pushedPositions (n k : nat) : list R :=
  match n with
  | O => []
  | S n' => coords (samplePosition random k) ++ pushedPositions n' (k + 4)
  end.

(** The seeds pushed by [n] iterations that start at draw [k]. *)
Fixpoint pushedRandoms (n k : nat) : list R :=
  match n with
  | O => []
  | S n' => random (k + 3) :: pushedRandoms n' (k + 4)
  end.

(** The geometry lines 97-127 build from [n] iterations at draw [k]. *)
Definition builtGeometry (n k : nat) : Geometry :=
  setAttribute "aRandom" {| array := pushedRandoms n k; itemSize := 1 |}
    (setAttribute "restingPosition"
       {| array := pushedPositions n k; itemSize := 3 |}
       (setAttribute "position"
          {| array := pushedPositions n k; itemSize := 3 |} emptyGeometry)).

End ClosedForms.

(** *** Assertions on runs *)

Definition Post (A : Type) : Type := A -> World -> list entry -> Prop.

(** From a world in [P] the program ends normally, in a result in [Q]. *)
Definition triple {A : Type} (P : World -> Prop) (m : Prog A) (Q : Post A)
  : Prop :=
  forall w, P w -> exists a w' l, m w = Ok a w' l /\ Q a w' l.

Definition allDisposed (gs : list Geometry) : Prop :=
  Forall (fun G => g_disposed G = true) gs.

(** [G] is the geometry the global [geometry] refers to, at index [g], and
    every other geometry has been disposed. *)
Definition current (g : nat) (G : Geometry) (w : World) : Prop :=
  exists gs,
    geometries w = gs ++ [G] /\ allDisposed gs /\ List.length gs = g
    /\ geometry w = Some g.

Definition builtField (og : option Geometry) : Prop :=
  exists G n, og = Some G /\ fullyBuilt n G = true.

(** What must hold right after every event: at most one live field, only
    fully built fields in the scene, and a draw call sees exactly one field,
    of [PARTICLE_COUNT] particles. *)
Definition entrySafe (e : entry) : Prop :=
  (liveFields (snd e) <= 1)%nat
  /\ Forall builtField (drawn (snd e))
  /\ (fst e = Render ->
      exists G, drawn (snd e) = [Some G]
                /\ fullyBuilt (Z.to_nat (PARTICLE_COUNT (snd e))) G = true).

(** The run made exactly the events [evs], each of them safe, and ended in
    a world in [S]. *)
Definition logged (evs : list event) (S : World -> Prop) : Post unit :=
  fun _ w l => S w /\ map fst l = evs /\ Forall entrySafe l.

(** One field, referred to by the three globals, is in the scene. *)
Record inScene (n : Z) (k g m o : nat) (G : Geometry) (w : World) : Prop := {
  st_count : PARTICLE_COUNT w = n;
  st_calls : randomCalls w = k;
  st_geometry : current g G w;
  st_material : material w = Some m;
  st_materials : List.length (materials w) = S m;
  st_orb : particleOrb w = Some o;
  st_objects : exists os p,
      objects w = os ++ [p] /\ List.length os = o /\ p_geometry p = g;
  st_scene : scene w = [o]
}.

(** Between two callbacks: that field is fully built, with [PARTICLE_COUNT]
    particles. *)
Definition settled (n : Z) (k g m o : nat) (G : Geometry) (w : World) : Prop :=
  inScene n k g m o G w /\ fullyBuilt (Z.to_nat n) G = true.

(** The world between two callbacks, whatever the references are. *)
Definition Settled (w : World) : Prop :=
  exists n k g m o G, settled n k g m o G w.

Definition safely (S : World -> Prop) : Post unit :=
  fun _ w l => S w /\ Forall entrySafe l.

(** After the old field is released: nothing in the scene, nothing live;
    [g], [m] and [o] are the next free references. *)
Record cleared (n : Z) (k g m o : nat) (w : World) : Prop := {
  cl_count : PARTICLE_COUNT w = n;
  cl_calls : randomCalls w = k;
  cl_scene : scene w = [];
  cl_disposed : allDisposed (geometries w);
  cl_geometries : List.length (geometries w) = g;
  cl_materials : List.length (materials w) = m;
  cl_objects : List.length (objects w) = o
}.

(** While the new field [G] is built: it is the only live one, and it is
    not in the scene. *)
Record building (n : Z) (k g m o : nat) (G : Geometry) (w : World) : Prop := {
  bu_count : PARTICLE_COUNT w = n;
  bu_calls : randomCalls w = k;
  bu_scene : scene w = [];
  bu_geometry : current g G w;
  bu_materials : List.length (materials w) = m;
  bu_objects : List.length (objects w) = o
}.

Record withMaterial (n : Z) (k g m o : nat) (G : Geometry) (w : World) : Prop := {
  wm_count : PARTICLE_COUNT w = n;
  wm_calls : randomCalls w = k;
  wm_scene : scene w = [];
  wm_geometry : current g G w;
  wm_material : material w = Some m;
  wm_materials : List.length (materials w) = S m;
  wm_objects : List.length (objects w) = o
}.

Record withPoints (n : Z) (k g m o : nat) (G : Geometry) (w : World) : Prop := {
  wp_count : PARTICLE_COUNT w = n;
  wp_calls : randomCalls w = k;
  wp_scene : scene w = [];
  wp_geometry : current g G w;
  wp_material : material w = Some m;
  wp_materials : List.length (materials w) = S m;
  wp_orb : particleOrb w = Some o;
  wp_objects : exists os p,
      objects w = os ++ [p] /\ List.length os = o /\ p_geometry p = g
}.

(** The events of one call of [createParticles] that replaces the field
    [o] (geometry [g], material [m]) by the field [o'] ([g'], [m']). *)
Definition buildEvents (g' m' o' : nat) : list event :=
  [GeometryNew g'; AttributeSet g' "position";
   AttributeSet g' "restingPosition"; AttributeSet g' "aRandom";
   MaterialNew m'; PointsNew o' g' m'; SceneAdd o'].

Definition releaseEvents (g m o : nat) : list event :=
  [SceneRemove o; GeometryDispose g; MaterialDispose m].

(** The field of the world [w] has [n] particles, generated from the draws
    [k], [k + 1], ... of [Math.random()]: four draws per particle, three for
    the position and one for the seed. *)
Definition generatedField (random : nat -> R) (n k : nat) (w : World) : Prop :=
  exists g G p r s,
    geometry w = Some g /\ nth_error (geometries w) g = Some G
    /\ drawn w = [Some G]
    /\ getAttribute "position" G = Some p
    /\ getAttribute "restingPosition" G = Some r
    /\ getAttribute "aRandom" G = Some s
    /\ (List.length (array p) = 3 * n /\ List.length (array r) = 3 * n
        /\ List.length (array s) = n)%nat
    /\ (count p = n /\ count r = n /\ count s = n)
    /\ forall i, (i < n)%nat ->
         getXYZ r i = samplePosition random (k + 4 * i)
         /\ getXYZ p i = getXYZ r i
         /\ getX s i = random (k + 4 * i + 3)%nat
         /\ vertexAttributes G i
            = Some {| position := samplePosition random (k + 4 * i);
                      restingPosition := samplePosition random (k + 4 * i);
                      aRandom := random (k + 4 * i + 3)%nat |}.



(** ** Further observations *)

(** line 64, as a function of the view-space depth coordinate *)
Definition pointSize (modelViewPositionZ : float) : float :=
  (fin 4 * (fin 1 / - modelViewPositionZ))%fl.

(** line 75: the clamped argument of [smoothstep(0.45, 0.5, dist)] *)
Definition ramp (d : R) : R := Rmin (Rmax ((d - 0.45) / (0.5 - 0.45)) 0) 1.

(** A frame of the script: any uniforms, with the camera of lines 3-8 and
    16 and the orb rotated as at line 211. *)
Definition scriptFrame (time : R) (cursor : rvec2) (rad s : R) (c1 c2 : rvec3)
  (f aspect zz zw angle : R) : Uniforms :=
  {| uTime := time; uMouse := cursor;
     uInteractionRadius := rad; uRepulsionStrength := s;
     uColor1 := c1; uColor2 := c2;
     projectionMatrix := perspective f aspect zz zw;
     modelViewMatrix := orbModelView angle |}.

(** The material a scene child refers to, and the materials and rotations
    [renderer.render(scene, camera)] reads. *)
Definition materialOf (w : World) (o : nat) : option Material :=
  match nth_error (objects w) o with
  | Some p => nth_error (materials w) (p_material p)
  | None => None
  end.

Definition drawnMaterials (w : World) : list (option Material) :=
  map (materialOf w) (scene w).

Definition drawnRotations (w : World) : list (option R) :=
  map (fun o => option_map rotation_y (nth_error (objects w) o)) (scene w).

(** The material of lines 129-143, as [createParticles] makes it. *)
Definition defaultMaterial : Material :=
  {| m_uTime := 0; m_uInteractionRadius := 0.8; m_uRepulsionStrength := 0.5;
     m_uColor1 := "#ff0080"; m_uColor2 := "#00ffff"; m_disposed := false |}.

(** The global [material] refers to [M], the newest material, the global
    [particleOrb] to the newest object, and that object uses [M] and is
    rotated by [rot] about the y axis. *)
Definition wired (M : Material) (rot : R) (w : World) : Prop :=
  exists ms os p,
    materials w = ms ++ [M] /\ material w = Some (List.length ms)
    /\ objects w = os ++ [p] /\ particleOrb w = Some (List.length os)
    /\ p_material p = List.length ms /\ rotation_y p = rot.

(** Whenever the program ends normally from a world in [P], it ends in a
    world in [Q]. *)
Definition ensures {A : Type} (P : World -> Prop) (m : Prog A)
  (Q : World -> Prop) : Prop :=
  forall w a w' l, P w -> m w = Ok a w' l -> Q w'.

(** * Properties *)

(** ** Shader floats *)

Lemma flt_fin (x y : R) :
  (fin x <? fin y)%fl = if Rlt_dec x y then true else false.
Proof. reflexivity. Qed.

Lemma fdiv_fin (x y : R) : y <> 0 -> (fin x / fin y)%fl = fin (x / y).
Proof.
  intros Hy. unfold fdiv, fin. destruct (Req_dec_T y 0); [contradiction | reflexivity].
Qed.

Lemma fdiv_zero (a : float) : (a / fin 0)%fl = None.
Proof.
  unfold fdiv, fin. destruct a; [| reflexivity].
  destruct (Req_dec_T 0 0); [reflexivity | exfalso; auto].
Qed.

Lemma fsqrt_fin (x : R) : 0 <= x -> fsqrt (fin x) = fin (sqrt x).
Proof.
  intros Hx. unfold fsqrt, fin. destruct (Rlt_dec x 0); [lra | reflexivity].
Qed.

Lemma length_fin (x y : R) :
  length (Vec2 (fin x) (fin y)) = fin (sqrt (x * x + y * y)).
Proof.
  unfold length. simpl. apply fsqrt_fin. nra.
Qed.

(** A finite [length] is never negative. *)
Lemma length_nonneg (v : vec2) (d : R) : length v = fin d -> 0 <= d.
Proof.
  destruct v as [[x|] [y|]]; unfold length, fsqrt, fadd, fmul, lift2, fin; simpl;
    try discriminate.
  destruct (Rlt_dec (x * x + y * y) 0); [discriminate |].
  intros H. injection H as <-. apply sqrt_pos.
Qed.

Lemma distance_nonneg (u : Uniforms) (a : Attributes) (d : R) :
  distance u a = fin d -> 0 <= d.
Proof. apply length_nonneg. Qed.

Lemma screenXY_fin (u : Uniforms) (a : Attributes) (x y z w : R) :
  screenPos u a = Vec4 (fin x) (fin y) (fin z) (fin w) -> w <> 0 ->
  screenXY u a = Vec2 (fin (x / w)) (fin (y / w)).
Proof.
  intros H Hw. unfold screenXY. rewrite H. cbn [x4 y4 w4].
  rewrite !fdiv_fin by exact Hw. reflexivity.
Qed.

(** The branch of lines 47-50 on finite values. *)
Lemma repulsionMagnitude_fin (d rad s : R) :
  0 <= d ->
  repulsionMagnitude (fin d) (fin rad) (fin s)
  = fin (if Rlt_dec d rad then (1 - d / rad) * s else 0).
Proof.
  intros Hd. unfold repulsionMagnitude. rewrite flt_fin.
  destruct (Rlt_dec d rad) as [Hlt | Hge]; [| reflexivity].
  rewrite fdiv_fin by lra. reflexivity.
Qed.

(** ** The repulsion magnitude *)

(** C1. For every frame [u] and particle [a], with [d] the distance between
    the projected rest position and the cursor, the repulsion magnitude is
    [(1 - d / interactionRadius) * repulsionStrength] when
    [d < interactionRadius] and [0] otherwise; it is non-increasing in [d],
    [0] at and beyond the radius, and tends to [repulsionStrength] as [d]
    tends to [0] (and is [repulsionStrength] at [d = 0]). *)
Theorem repulsion_magnitude_falloff (rad s : R) :
  0 < rad -> 0 < s ->
  (forall u a d,
      uInteractionRadius u = rad -> uRepulsionStrength u = s ->
      distance u a = fin d ->
      0 <= d /\
      repulsionStrength u a = repulsionMagnitude (fin d) (fin rad) (fin s) /\
      repulsionStrength u a
      = fin (if Rlt_dec d rad then (1 - d / rad) * s else 0))
  /\ (forall d1 d2, 0 <= d1 -> d1 <= d2 ->
      exists m1 m2,
        repulsionMagnitude (fin d1) (fin rad) (fin s) = fin m1 /\
        repulsionMagnitude (fin d2) (fin rad) (fin s) = fin m2 /\
        m2 <= m1)
  /\ (forall d, rad <= d ->
      repulsionMagnitude (fin d) (fin rad) (fin s) = fin 0)
  /\ repulsionMagnitude (fin 0) (fin rad) (fin s) = fin s
  /\ (forall eps, 0 < eps ->
      exists delta, 0 < delta /\
        forall d, 0 <= d -> d < delta ->
          exists m,
            repulsionMagnitude (fin d) (fin rad) (fin s) = fin m /\
            Rabs (m - s) < eps).
Proof.
  intros Hrad Hs. repeat split.
  - eapply distance_nonneg; eauto.
  - unfold repulsionStrength. rewrite H, H0, H1. reflexivity.
  - unfold repulsionStrength. rewrite H, H0, H1.
    apply repulsionMagnitude_fin. eapply distance_nonneg; eauto.
  - intros d1 d2 Hd1 Hle.
    rewrite !repulsionMagnitude_fin by lra.
    do 2 eexists. split; [reflexivity |]. split; [reflexivity |].
    assert (Hinv : 0 < / rad) by (apply Rinv_0_lt_compat; exact Hrad).
    destruct (Rlt_dec d2 rad) as [H2 | H2], (Rlt_dec d1 rad) as [H1 | H1];
      try lra.
    + unfold Rdiv. apply Rmult_le_compat_r; [lra |]. nra.
    + apply Rmult_le_pos; [| lra].
      assert (d1 * / rad < 1).
      { rewrite <- (Rinv_r rad) by lra. apply Rmult_lt_compat_r; lra. }
      unfold Rdiv. lra.
  - intros d Hd. unfold repulsionMagnitude. rewrite flt_fin.
    destruct (Rlt_dec d rad); [lra | reflexivity].
  - rewrite repulsionMagnitude_fin by lra.
    destruct (Rlt_dec 0 rad); [| lra]. f_equal. field. lra.
  - intros eps Heps.
    exists (Rmin rad (eps * rad / s)).
    assert (Hq : 0 < eps * rad / s).
    { apply Rdiv_lt_0_compat; [nra | lra]. }
    split; [apply Rmin_pos; lra |].
    intros d Hd Hlt.
    assert (Hd1 : d < rad) by (eapply Rlt_le_trans; [exact Hlt | apply Rmin_l]).
    assert (Hd2 : d < eps * rad / s)
      by (eapply Rlt_le_trans; [exact Hlt | apply Rmin_r]).
    rewrite repulsionMagnitude_fin by lra.
    destruct (Rlt_dec d rad); [| lra].
    eexists. split; [reflexivity |].
    replace ((1 - d / rad) * s - s) with (- (d * s / rad)) by (field; lra).
    rewrite Rabs_Ropp, Rabs_pos_eq.
    + apply (Rmult_lt_reg_r (rad / s)); [apply Rdiv_lt_0_compat; lra |].
      replace (d * s / rad * (rad / s)) with d by (field; lra).
      replace (eps * (rad / s)) with (eps * rad / s) by (field; lra).
      exact Hd2.
    + apply Rmult_le_pos; [nra |]. left. apply Rinv_0_lt_compat. lra.
Qed.

Lemma scenario_screenXY :
  screenXY scenarioFrame scenarioParticle = Vec2 (fin 0.15) (fin 0.1).
Proof.
  assert (H : screenPos scenarioFrame scenarioParticle
              = Vec4 (fin 0.525) (fin 0.35) (fin 3.3) (fin 3.5)).
  { unfold screenPos, mat_vec, row_vec, mat_mul, row_mat, row_add, row_scale.
    unfold fadd, fmul, lift2, fin. simpl. rewrite cos_0, sin_0.
    f_equal; f_equal; lra. }
  rewrite (screenXY_fin _ _ _ _ _ _ H) by lra.
  unfold fin. f_equal; f_equal; lra.
Qed.

Lemma scenario_distance : distance scenarioFrame scenarioParticle = fin 0.05.
Proof.
  unfold distance. rewrite scenario_screenXY.
  unfold vsub2, vec2_of. cbn [x2 y2 uMouse scenarioFrame rx2 ry2].
  unfold fsub, lift2, fin. change (length (Vec2 (fin (0.15 - 0.1)) (fin (0.1 - 0.1))) = fin 0.05).
  rewrite length_fin. f_equal.
  replace ((0.15 - 0.1) * (0.15 - 0.1) + (0.1 - 0.1) * (0.1 - 0.1))
    with (0.05 * 0.05) by lra.
  apply sqrt_square. lra.
Qed.

(** The default parameters of lines 133-134, at distance 0.05 from the
    cursor: the magnitude is [(1 - 0.05 / 0.8) * 0.5 = 0.46875]. *)
Lemma repulsion_magnitude_falloff_witness :
  (0 < 0.8 /\ 0 < 0.5) /\
  repulsionStrength scenarioFrame scenarioParticle = fin 0.46875.
Proof.
  split; [lra |].
  destruct (repulsion_magnitude_falloff 0.8 0.5) as [H _]; [lra | lra |].
  destruct (H scenarioFrame scenarioParticle 0.05 eq_refl eq_refl
              scenario_distance) as (_ & _ & E).
  rewrite E. destruct (Rlt_dec 0.05 0.8); [f_equal; lra | lra].
Defined.

(** ** The normalization singularity *)

(** [normalize] has no finite value on the zero vector. *)
Lemma normalize_zero : normalize (Vec2 (fin 0) (fin 0)) = Vec2 None None.
Proof.
  unfold normalize. rewrite length_fin.
  replace (0 * 0 + 0 * 0) with 0 by ring. rewrite sqrt_0.
  cbn [x2 y2]. rewrite fdiv_zero. reflexivity.
Qed.

(** A particle whose rest position projects onto the cursor gets no finite
    direction, whatever the other uniforms are. *)
Lemma direction_at_cursor (u : Uniforms) (a : Attributes) :
  screenXY u a = vec2_of (uMouse u) -> direction u a = Vec2 None None.
Proof.
  intros H. unfold direction. rewrite H.
  unfold vsub2, vec2_of. simpl. unfold fsub, lift2, fin.
  rewrite !Rminus_diag. apply normalize_zero.
Qed.

Lemma distance_at_cursor (u : Uniforms) (a : Attributes) :
  screenXY u a = vec2_of (uMouse u) -> distance u a = fin 0.
Proof.
  intros H. unfold distance. rewrite H.
  unfold vsub2, vec2_of. cbn [x2 y2]. unfold fsub, lift2, fin.
  rewrite !Rminus_diag. change (length (Vec2 (fin 0) (fin 0)) = fin 0).
  rewrite length_fin. replace (0 * 0 + 0 * 0) with 0 by ring.
  rewrite sqrt_0. reflexivity.
Qed.

Lemma centre_screenPos time rad s c1 c2 f aspect zz zw angle seed :
  screenPos (centredFrame time rad s c1 c2 f aspect zz zw angle)
            (centreParticle seed)
  = Vec4 (fin 0) (fin 0) (fin (zz * -3.5 + zw)) (fin 3.5).
Proof.
  unfold screenPos, mat_vec, row_vec, mat_mul, row_mat, row_add, row_scale.
  unfold fadd, fmul, lift2, fin. simpl.
  f_equal; f_equal; unfold Rdiv; lra.
Qed.

(** C2, on the code.  With the cursor at the centre and a particle at the
    centre of the orb the distance is exactly [0], and the vertex stage
    produces no finite value for the direction, for the x and y of the
    displaced position, for any component of [gl_Position] and for
    [gl_PointSize]; the earlier revision of the shader behaves the same. *)
Theorem zero_distance_not_finite time rad s c1 c2 f aspect zz zw angle seed :
  let u := centredFrame time rad s c1 c2 f aspect zz zw angle in
  let a := centreParticle seed in
  distance u a = fin 0
  /\ direction u a = Vec2 None None
  /\ repulsion u a = Vec2 None None
  /\ x3 (finalPosition u a) = None /\ y3 (finalPosition u a) = None
  /\ gl_Position (vertexShader u a) = Vec4 None None None None
  /\ gl_PointSize (vertexShader u a) = None
  /\ x3 (Part000.finalPosition u a) = None
  /\ y3 (Part000.finalPosition u a) = None
  /\ gl_Position (Part000.vertexShader u a) = Vec4 None None None None.
Proof.
  intros u a.
  assert (Hxy : screenXY u a = vec2_of (uMouse u)).
  { unfold u, a. erewrite screenXY_fin by (apply centre_screenPos || lra).
    unfold vec2_of, fin. simpl. f_equal; f_equal; lra. }
  assert (Hdir : direction u a = Vec2 None None)
    by (apply direction_at_cursor; exact Hxy).
  assert (Hrep : repulsion u a = Vec2 None None)
    by (unfold repulsion; rewrite Hdir; reflexivity).
  assert (Hrep0 : Part000.repulsion u a = Vec2 None None)
    by (unfold Part000.repulsion; rewrite Hdir; reflexivity).
  assert (Hfin : finalPosition u a
                 = Vec3 None None (z3 (finalPosition u a))).
  { unfold finalPosition, breathe, repelledPosition. rewrite Hrep. reflexivity. }
  assert (Hfin0 : Part000.finalPosition u a
                  = Vec3 None None (z3 (Part000.finalPosition u a))).
  { unfold Part000.finalPosition, breathe, Part000.repelledPosition.
    rewrite Hrep0. reflexivity. }
  repeat split.
  - apply distance_at_cursor. exact Hxy.
  - exact Hdir.
  - exact Hrep.
  - rewrite Hfin. reflexivity.
  - rewrite Hfin. reflexivity.
  - unfold vertexShader, modelViewPosition. simpl. rewrite Hfin. reflexivity.
  - unfold vertexShader, modelViewPosition. simpl. rewrite Hfin. reflexivity.
  - rewrite Hfin0. reflexivity.
  - rewrite Hfin0. reflexivity.
  - unfold Part000.vertexShader, Part000.modelViewPosition. simpl.
    rewrite Hfin0. reflexivity.
Qed.

(** ** Colour *)

Lemma mix_fin (x y t : R) : mix (fin x) (fin y) (fin t) = fin (x * (1 - t) + y * t).
Proof. reflexivity. Qed.

Lemma colorFactor_fin (y : R) : colorFactor (fin y) = fin ((y + 1.5) / 3).
Proof. unfold colorFactor. unfold fadd, lift2, fin. apply fdiv_fin. lra. Qed.

Lemma vColor_restColor (u : Uniforms) (a : Attributes) :
  vColor (vertexShader u a)
  = vec3_of (restColor (uColor1 u) (uColor2 u) (ry3 (restingPosition a))).
Proof.
  unfold vertexShader, mix3, vec3_of, restColor. cbn [vColor x3 y3 z3 rx3 ry3 rz3].
  rewrite colorFactor_fin, !mix_fin. reflexivity.
Qed.

Lemma mix_difference (x y t1 t2 : R) :
  Rabs ((x * (1 - (t1 + 1.5) / 3) + y * ((t1 + 1.5) / 3))
        - (x * (1 - (t2 + 1.5) / 3) + y * ((t2 + 1.5) / 3)))
  = Rabs (y - x) / 3 * Rabs (t1 - t2).
Proof.
  replace ((x * (1 - (t1 + 1.5) / 3) + y * ((t1 + 1.5) / 3))
           - (x * (1 - (t2 + 1.5) / 3) + y * ((t2 + 1.5) / 3)))
    with ((y - x) * / 3 * (t1 - t2)) by field.
  rewrite !Rabs_mult. rewrite (Rabs_pos_eq (/ 3)) by lra. reflexivity.
Qed.

(** C6. The output colour is [mix(color1, color2, t)] with a factor [t] that
    is a function of the rest height alone, [(y + 1.5) / 3]; it is the same
    for any two frames and particles that agree on the two colours and on
    the rest height, whatever the cursor, the time and the displaced
    position are; and it is Lipschitz in the rest height: each channel
    changes by [|color2 - color1| / 3] times the change of height. *)
Theorem color_from_rest_height :
  (forall u a,
      vColor (vertexShader u a)
      = mix3 (vec3_of (uColor1 u)) (vec3_of (uColor2 u))
             (colorFactor (fin (ry3 (restingPosition a))))
      /\ colorFactor (fin (ry3 (restingPosition a)))
         = fin ((ry3 (restingPosition a) + 1.5) / 3)
      /\ vColor (vertexShader u a)
         = vec3_of (restColor (uColor1 u) (uColor2 u) (ry3 (restingPosition a))))
  /\ (forall c1 c2 y t t' m m' rad rad' s s' P P' MV MV' pos pos' x x' z z' r r',
      vColor (vertexShader
                {| uTime := t; uMouse := m; uInteractionRadius := rad;
                   uRepulsionStrength := s; uColor1 := c1; uColor2 := c2;
                   projectionMatrix := P; modelViewMatrix := MV |}
                {| position := pos; restingPosition := RVec3 x y z;
                   aRandom := r |})
      = vColor (vertexShader
                {| uTime := t'; uMouse := m'; uInteractionRadius := rad';
                   uRepulsionStrength := s'; uColor1 := c1; uColor2 := c2;
                   projectionMatrix := P'; modelViewMatrix := MV' |}
                {| position := pos'; restingPosition := RVec3 x' y z';
                   aRandom := r' |}))
  /\ (forall c1 c2 y1 y2,
      let k1 := restColor c1 c2 y1 in
      let k2 := restColor c1 c2 y2 in
      Rabs (rx3 k1 - rx3 k2) = Rabs (rx3 c2 - rx3 c1) / 3 * Rabs (y1 - y2) /\
      Rabs (ry3 k1 - ry3 k2) = Rabs (ry3 c2 - ry3 c1) / 3 * Rabs (y1 - y2) /\
      Rabs (rz3 k1 - rz3 k2) = Rabs (rz3 c2 - rz3 c1) / 3 * Rabs (y1 - y2)).
Proof.
  split; [| split].
  - intros u a. split; [reflexivity |]. split.
    + apply colorFactor_fin.
    + apply vColor_restColor.
  - intros. rewrite !vColor_restColor. reflexivity.
  - intros c1 c2 y1 y2 k1 k2. unfold k1, k2, restColor. cbn [rx3 ry3 rz3].
    repeat split; apply mix_difference.
Qed.

(** ** The alpha mask *)

Lemma smoothstep_fin (d : R) :
  smoothstep (fin 0.45) (fin 0.5) (fin d)
  = let t := Rmin (Rmax ((d - 0.45) / (0.5 - 0.45)) 0) 1 in
    fin (t * t * (3 - 2 * t)).
Proof.
  unfold smoothstep, clamp, fmin, fmax, fmul, fsub, fdiv, lift2, fin.
  destruct (Req_dec_T (0.5 - 0.45) 0); [lra | reflexivity].
Qed.

Lemma alpha_of_dist (p : rvec2) (d : R) :
  dist p = fin d ->
  alpha p = let t := Rmin (Rmax ((d - 0.45) / (0.5 - 0.45)) 0) 1 in
            fin (1 - t * t * (3 - 2 * t)).
Proof.
  intros H. unfold alpha. rewrite H, smoothstep_fin. reflexivity.
Qed.

Lemma dist_fin (x y : R) :
  dist (RVec2 x y) = fin (sqrt ((x - 0.5) * (x - 0.5) + (y - 0.5) * (y - 0.5))).
Proof.
  unfold dist, vsub2, vec2_of. cbn [x2 y2 rx2 ry2].
  unfold fsub, lift2, fin. apply length_fin.
Qed.

(** C7. A fragment at distance 0.4 from the sprite centre gets alpha exactly
    1; at distance 0.48 an alpha strictly between 0 and 1 (it is 0.352); at
    distance 0.6 an alpha (it is 0) below the epsilon 0.01, and the fragment
    is discarded. *)
Theorem alpha_mask_scenario (vColor : vec3) (p1 p2 p3 : rvec2) :
  dist p1 = fin 0.4 -> dist p2 = fin 0.48 -> dist p3 = fin 0.6 ->
  (alpha p1 = fin 1
   /\ fragmentShader vColor p1 = Some (vec4_of vColor (fin 1)))
  /\ (exists al, alpha p2 = fin al /\ 0 < al < 1
      /\ fragmentShader vColor p2 = Some (vec4_of vColor (fin al)))
  /\ (exists al, alpha p3 = fin al /\ al < 0.01
      /\ fragmentShader vColor p3 = None).
Proof.
  intros H1 H2 H3.
  assert (A1 : alpha p1 = fin 1).
  { rewrite (alpha_of_dist _ _ H1). cbv zeta.
    replace ((0.4 - 0.45) / (0.5 - 0.45)) with (-1) by lra.
    rewrite Rmax_right by lra. rewrite Rmin_left by lra. f_equal. lra. }
  assert (A2 : alpha p2 = fin 0.352).
  { rewrite (alpha_of_dist _ _ H2). cbv zeta.
    replace ((0.48 - 0.45) / (0.5 - 0.45)) with 0.6 by lra.
    rewrite Rmax_left by lra. rewrite Rmin_left by lra. f_equal. lra. }
  assert (A3 : alpha p3 = fin 0).
  { rewrite (alpha_of_dist _ _ H3). cbv zeta.
    replace ((0.6 - 0.45) / (0.5 - 0.45)) with 3 by lra.
    rewrite Rmax_left by lra. rewrite Rmin_right by lra. f_equal. lra. }
  split; [| split].
  - split; [exact A1 |]. unfold fragmentShader. rewrite A1, flt_fin.
    destruct (Rlt_dec 1 0.01); [lra | reflexivity].
  - exists 0.352. split; [exact A2 |]. split; [lra |].
    unfold fragmentShader. rewrite A2, flt_fin.
    destruct (Rlt_dec 0.352 0.01); [lra | reflexivity].
  - exists 0. split; [exact A3 |]. split; [lra |].
    unfold fragmentShader. rewrite A3, flt_fin.
    destruct (Rlt_dec 0 0.01); [reflexivity | lra].
Qed.

(** Three sprite coordinates at those distances. *)
Lemma alpha_mask_scenario_witness :
  (dist (RVec2 0.9 0.5) = fin 0.4 /\ dist (RVec2 0.98 0.5) = fin 0.48
   /\ dist (RVec2 0.86 0.98) = fin 0.6)
  /\ alpha (RVec2 0.9 0.5) = fin 1
  /\ fragmentShader (Vec3 (fin 1) (fin 0) (fin 0.5)) (RVec2 0.86 0.98) = None.
Proof.
  assert (D1 : dist (RVec2 0.9 0.5) = fin 0.4).
  { rewrite dist_fin. f_equal.
    replace ((0.9 - 0.5) * (0.9 - 0.5) + (0.5 - 0.5) * (0.5 - 0.5))
      with (0.4 * 0.4) by lra.
    apply sqrt_square. lra. }
  assert (D2 : dist (RVec2 0.98 0.5) = fin 0.48).
  { rewrite dist_fin. f_equal.
    replace ((0.98 - 0.5) * (0.98 - 0.5) + (0.5 - 0.5) * (0.5 - 0.5))
      with (0.48 * 0.48) by lra.
    apply sqrt_square. lra. }
  assert (D3 : dist (RVec2 0.86 0.98) = fin 0.6).
  { rewrite dist_fin. f_equal.
    replace ((0.86 - 0.5) * (0.86 - 0.5) + (0.98 - 0.5) * (0.98 - 0.5))
      with (0.6 * 0.6) by lra.
    apply sqrt_square. lra. }
  split; [auto |].
  destruct (alpha_mask_scenario (Vec3 (fin 1) (fin 0) (fin 0.5))
              (RVec2 0.9 0.5) (RVec2 0.98 0.5) (RVec2 0.86 0.98) D1 D2 D3)
    as [[A1 _] [_ [al [_ [_ F3]]]]].
  split; [exact A1 | exact F3].
Defined.

(** ** Displacement *)

Lemma breathe_fin (t r x y z : R) :
  breathe (fin t) (fin r) (Vec3 (fin x) (fin y) (fin z))
  = Vec3 (fin (x + sin (t * 0.5 + r * 10) * 0.01))
         (fin (y + cos (t * 0.5 + r * 10) * 0.01))
         (fin (z + sin (t * 0.5 + r * 10) * 0.01)).
Proof. reflexivity. Qed.

Lemma finalPosition_z (u : Uniforms) (a : Attributes) :
  z3 (finalPosition u a)
  = fin (rz3 (restingPosition a) + sin (uTime u * 0.5 + aRandom a * 10) * 0.01).
Proof. reflexivity. Qed.

(** C8. The repulsion step changes x and y only: after it the z component
    is still the rest z, and the z component of the displaced position that
    is reprojected is the rest z plus the breathing term
    [sin(0.5 * time + 10 * randomSeed) * 0.01]; changing the cursor, the
    interaction radius and the repulsion strength of the frame leaves it
    unchanged. *)
Theorem repulsion_leaves_z :
  (forall u a,
      z3 (repelledPosition u a) = fin (rz3 (restingPosition a))
      /\ z3 (finalPosition u a)
         = fin (rz3 (restingPosition a)
                + sin (0.5 * uTime u + 10 * aRandom a) * 0.01))
  /\ (forall t c1 c2 P MV a m rad s m' rad' s',
      z3 (finalPosition
            {| uTime := t; uMouse := m; uInteractionRadius := rad;
               uRepulsionStrength := s; uColor1 := c1; uColor2 := c2;
               projectionMatrix := P; modelViewMatrix := MV |} a)
      = z3 (finalPosition
              {| uTime := t; uMouse := m'; uInteractionRadius := rad';
                 uRepulsionStrength := s'; uColor1 := c1; uColor2 := c2;
                 projectionMatrix := P; modelViewMatrix := MV |} a)).
Proof.
  split.
  - intros u a. split; [reflexivity |].
    rewrite finalPosition_z. do 4 f_equal. lra.
  - intros. rewrite !finalPosition_z. reflexivity.
Qed.

(** C10. The breathing offsets added to x and to z are the same number,
    [sin(0.5 * time + 10 * randomSeed) * 0.01], in both revisions of the
    shader, and each of the three offsets is at most 0.01 in magnitude. *)
Theorem breathing_offsets (t r : R) :
  let o := sin (0.5 * t + 10 * r) * 0.01 in
  let o' := cos (0.5 * t + 10 * r) * 0.01 in
  (forall x y z,
      breathe (fin t) (fin r) (Vec3 (fin x) (fin y) (fin z))
      = Vec3 (fin (x + o)) (fin (y + o')) (fin (z + o)))
  /\ Rabs o <= 0.01 /\ Rabs o' <= 0.01
  /\ (forall u a, uTime u = t -> aRandom a = r ->
      finalPosition u a = breathe (fin t) (fin r) (repelledPosition u a)
      /\ Part000.finalPosition u a
         = breathe (fin t) (fin r) (Part000.repelledPosition u a)).
Proof.
  intros o o'.
  assert (E : t * 0.5 + r * 10 = 0.5 * t + 10 * r) by lra.
  split; [| split; [| split]].
  - intros x y z. rewrite breathe_fin, E. reflexivity.
  - unfold o. rewrite Rabs_mult, (Rabs_pos_eq 0.01) by lra.
    pose proof (SIN_bound (0.5 * t + 10 * r)) as [Hl Hu].
    assert (Rabs (sin (0.5 * t + 10 * r)) <= 1) by (apply Rabs_le; lra).
    lra.
  - unfold o'. rewrite Rabs_mult, (Rabs_pos_eq 0.01) by lra.
    pose proof (COS_bound (0.5 * t + 10 * r)) as [Hl Hu].
    assert (Rabs (cos (0.5 * t + 10 * r)) <= 1) by (apply Rabs_le; lra).
    lra.
  - intros u a <- <-. split; reflexivity.
Qed.

(** At time 0 and seed 0 the offsets are [0], [0.01] and [0]. *)
Lemma breathing_offsets_witness :
  (uTime (centredFrame 0 0.8 0.5 (RVec3 1 0 0.5) (RVec3 0 1 1) 1 1 0 0 0) = 0
   /\ aRandom (centreParticle 0) = 0)
  /\ finalPosition (centredFrame 0 0.8 0.5 (RVec3 1 0 0.5) (RVec3 0 1 1) 1 1 0 0 0)
                   (centreParticle 0)
     = breathe (fin 0) (fin 0)
         (repelledPosition
            (centredFrame 0 0.8 0.5 (RVec3 1 0 0.5) (RVec3 0 1 1) 1 1 0 0 0)
            (centreParticle 0)).
Proof.
  split; [split; reflexivity |].
  apply (breathing_offsets 0 0); reflexivity.
Defined.

(** ** The generator loop *)

Section GeneratorFacts.

Variable random : nat -> R.

Lemma loop_closed_form (n : nat) : forall k b,
  loop random n k b
  = ((k + 4 * n)%nat,
     {| positions := positions b ++ pushedPositions random n k;
        restingPositions := restingPositions b ++ pushedPositions random n k;
        randoms := randoms b ++ pushedRandoms random n k |}).
Proof.
  induction n as [| n IH]; intros k b.
  - destruct b. simpl. rewrite !app_nil_r, Nat.add_0_r. reflexivity.
  - cbn [loop]. unfold loopBody. rewrite IH. cbn [positions restingPositions randoms].
    f_equal; [lia |].
    cbn [pushedPositions pushedRandoms coords].
    rewrite <- !app_assoc. reflexivity.
Qed.

Lemma pushedPositions_length (n : nat) : forall k,
  List.length (pushedPositions random n k) = (n * 3)%nat.
Proof.
  induction n as [| n IH]; intros k; [reflexivity |].
  cbn [pushedPositions]. rewrite length_app, IH. simpl. lia.
Qed.

Lemma pushedRandoms_length (n : nat) : forall k,
  List.length (pushedRandoms random n k) = (n * 1)%nat.
Proof.
  induction n as [| n IH]; intros k; [reflexivity |].
  cbn [pushedRandoms]. cbn [List.length]. rewrite IH. lia.
Qed.

Lemma pushedPositions_nth (n : nat) : forall k i c,
  (i < n)%nat -> (c < 3)%nat ->
  nth (i * 3 + c) (pushedPositions random n k) 0
  = nth c (coords (samplePosition random (k + 4 * i))) 0.
Proof.
  induction n as [| n IH]; intros k i c Hi Hc; [lia |].
  cbn [pushedPositions]. destruct i as [| i].
  - rewrite Nat.mul_0_r, Nat.add_0_r. cbn [Nat.mul Nat.add].
    apply app_nth1. simpl. exact Hc.
  - replace (S i * 3 + c)%nat with (3 + (i * 3 + c))%nat by lia.
    replace (k + 4 * S i)%nat with (k + 4 + 4 * i)%nat by lia.
    rewrite <- (IH (k + 4)%nat i c) by lia. reflexivity.
Qed.

Lemma pushedRandoms_nth (n : nat) : forall k i,
  (i < n)%nat ->
  nth (i * 1) (pushedRandoms random n k) 0 = random (k + 4 * i + 3).
Proof.
  induction n as [| n IH]; intros k i Hi; [lia |].
  cbn [pushedRandoms]. destruct i as [| i].
  - rewrite Nat.mul_0_r, Nat.add_0_r. reflexivity.
  - replace (S i * 1)%nat with (S (i * 1)) by lia.
    replace (k + 4 * S i + 3)%nat with (k + 4 + 4 * i + 3)%nat by lia.
    rewrite <- (IH (k + 4)%nat i) by lia. reflexivity.
Qed.

(** The attributes of the built geometry, item by item. *)
Lemma builtGeometry_attributes (n k : nat) :
  getAttribute "position" (builtGeometry random n k)
  = Some {| array := pushedPositions random n k; itemSize := 3 |}
  /\ getAttribute "restingPosition" (builtGeometry random n k)
     = Some {| array := pushedPositions random n k; itemSize := 3 |}
  /\ getAttribute "aRandom" (builtGeometry random n k)
     = Some {| array := pushedRandoms random n k; itemSize := 1 |}.
Proof. repeat split; reflexivity. Qed.

Lemma builtGeometry_item (n k i : nat) :
  (i < n)%nat ->
  getXYZ {| array := pushedPositions random n k; itemSize := 3 |} i
  = samplePosition random (k + 4 * i)
  /\ getX {| array := pushedRandoms random n k; itemSize := 1 |} i
     = random (k + 4 * i + 3).
Proof.
  intros Hi. split.
  - unfold getXYZ, getX, getY, getZ. cbn [array itemSize].
    rewrite <- (Nat.add_0_r (i * 3)) at 1.
    rewrite !pushedPositions_nth by lia.
    destruct (samplePosition random (k + 4 * i)). reflexivity.
  - unfold getX. cbn [array itemSize]. apply pushedRandoms_nth. exact Hi.
Qed.

Lemma builtGeometry_fullyBuilt (n k : nat) :
  fullyBuilt n (builtGeometry random n k) = true.
Proof.
  unfold fullyBuilt, hasItems.
  destruct (builtGeometry_attributes n k) as [-> [-> ->]].
  cbn [array itemSize isLive builtGeometry setAttribute g_disposed
       emptyGeometry negb Nat.eqb andb].
  rewrite pushedPositions_length, pushedRandoms_length, !Nat.eqb_refl.
  reflexivity.
Qed.

End GeneratorFacts.

(** ** Samples lie in the ball *)

Lemma cbrt_cube (x : R) : cbrt x * cbrt x * cbrt x = x.
Proof.
  assert (P : forall y, 0 < y ->
              Rpower y (/ 3) * Rpower y (/ 3) * Rpower y (/ 3) = y).
  { intros y Hy. rewrite <- !Rpower_plus.
    replace (/ 3 + / 3 + / 3) with 1 by field.
    apply Rpower_1. exact Hy. }
  unfold cbrt. destruct (Req_dec_T x 0) as [-> | Hx]; [ring |].
  destruct (Rlt_dec 0 x) as [Hpos | Hneg].
  - apply P. exact Hpos.
  - replace (- Rpower (- x) (/ 3) * - Rpower (- x) (/ 3) * - Rpower (- x) (/ 3))
      with (- (Rpower (- x) (/ 3) * Rpower (- x) (/ 3) * Rpower (- x) (/ 3)))
      by ring.
    rewrite P by lra. ring.
Qed.

Lemma cbrt_unit_interval (v : R) : 0 <= v < 1 -> 0 <= cbrt v < 1.
Proof.
  intros [H0 H1]. unfold cbrt.
  destruct (Req_dec_T v 0) as [-> | Hv]; [lra |].
  destruct (Rlt_dec 0 v) as [Hpos | Hneg]; [| lra].
  unfold Rpower. split.
  - left. apply exp_pos.
  - rewrite <- exp_0. apply exp_increasing.
    assert (ln v < 0) by (rewrite <- ln_1; apply ln_increasing; lra).
    nra.
Qed.

Lemma norm_spherical (r phi theta : R) :
  norm (RVec3 (r * sin phi * cos theta) (r * sin phi * sin theta) (r * cos phi))
  = Rabs r.
Proof.
  unfold norm. cbn [rx3 ry3 rz3].
  pose proof (sin2_cos2 phi) as Hp. pose proof (sin2_cos2 theta) as Ht.
  unfold Rsqr in Hp, Ht.
  replace (r * sin phi * cos theta * (r * sin phi * cos theta)
           + r * sin phi * sin theta * (r * sin phi * sin theta)
           + r * cos phi * (r * cos phi))
    with (r * r * (sin phi * sin phi
                   * (sin theta * sin theta + cos theta * cos theta)
                   + cos phi * cos phi)) by ring.
  rewrite Ht, Rmult_1_r, Hp, Rmult_1_r.
  apply sqrt_Rsqr_abs.
Qed.

Lemma samplePosition_in_ball (random : nat -> R) (k : nat) :
  0 <= random (k + 2)%nat < 1 ->
  norm (samplePosition random k) <= arrangementRadius.
Proof.
  intros Hr. unfold samplePosition. cbv zeta. rewrite norm_spherical.
  pose proof (cbrt_unit_interval _ Hr) as [Hc0 Hc1].
  unfold arrangementRadius. rewrite Rabs_pos_eq by nra. nra.
Qed.

(** ** Reasoning about runs *)

Lemma triple_pre {A : Type} (P P' : World -> Prop) (m : Prog A) (Q : Post A) :
  (forall w, P w -> P' w) -> triple P' m Q -> triple P m Q.
Proof. intros HP H w Hw. apply H, HP, Hw. Qed.

Lemma triple_bind {A B : Type} (P : World -> Prop) (m : Prog A)
  (k : A -> Prog B) (Q1 : Post A) (Q2 : Post B) :
  triple P m Q1 ->
  (forall a l1,
      triple (fun w => Q1 a w l1) (k a) (fun b w' l2 => Q2 b w' (l1 ++ l2))) ->
  triple P (bind m k) Q2.
Proof.
  intros Hm Hk w Hw.
  destruct (Hm w Hw) as (a & w1 & l1 & E1 & H1).
  destruct (Hk a l1 w1 H1) as (b & w2 & l2 & E2 & H2).
  exists b, w2, (l1 ++ l2). unfold bind. rewrite E1, E2. auto.
Qed.

Lemma triple_seq (P S1 S2 : World -> Prop) (m k : Prog unit)
  (evs1 evs2 : list event) :
  triple P m (logged evs1 S1) ->
  triple S1 k (logged evs2 S2) ->
  triple P (m ;; k) (logged (evs1 ++ evs2) S2).
Proof.
  intros Hm Hk. eapply triple_bind; [exact Hm |].
  intros [] l1 w (Hs & Hev & Hsafe).
  destruct (Hk w Hs) as ([] & w2 & l2 & E2 & Hs2 & Hev2 & Hsafe2).
  exists tt, w2, l2. split; [exact E2 |]. unfold logged.
  split; [exact Hs2 |]. split.
  - subst evs1 evs2. apply map_app.
  - apply Forall_app. auto.
Qed.

Lemma triple_get_bind {A B : Type} (P : World -> Prop) (f : World -> A)
  (k : A -> Prog B) (Q : Post B) :
  (forall v, triple (fun w => P w /\ f w = v) (k v) Q) ->
  triple P (bind (get f) k) Q.
Proof.
  intros Hk w Hw.
  destruct (Hk (f w) w (conj Hw eq_refl)) as (b & w2 & l2 & E2 & H2).
  exists b, w2, l2. unfold bind, get. rewrite E2. auto.
Qed.

Lemma triple_deref_bind {B : Type} (P : World -> Prop)
  (f : World -> option nat) (i : nat) (k : nat -> Prog B) (Q : Post B) :
  (forall w, P w -> f w = Some i) -> triple P (k i) Q ->
  triple P (bind (deref f) k) Q.
Proof.
  intros Hf Hk w Hw.
  destruct (Hk w Hw) as (b & w2 & l2 & E2 & H2).
  exists b, w2, l2. unfold bind, deref. rewrite (Hf w Hw), E2. auto.
Qed.

Lemma triple_emit (P S : World -> Prop) (e : event) (f : World -> World) :
  (forall w, P w -> S (f w)) ->
  (forall w, P w -> entrySafe (e, f w)) ->
  triple P (emit e f) (logged [e] S).
Proof.
  intros HS HE w Hw. exists tt, (f w), [(e, f w)].
  split; [reflexivity |]. split; [auto |]. split; [reflexivity |].
  constructor; [auto | constructor].
Qed.

Lemma triple_modify (P S : World -> Prop) (f : World -> World) :
  (forall w, P w -> S (f w)) -> triple P (modify f) (logged [] S).
Proof.
  intros HS w Hw. exists tt, (f w), [].
  split; [reflexivity |]. split; [auto |]. split; [reflexivity | constructor].
Qed.

Lemma triple_ret (P S : World -> Prop) :
  (forall w, P w -> S w) -> triple P (ret tt) (logged [] S).
Proof.
  intros HS w Hw. exists tt, w, [].
  split; [reflexivity |]. split; [auto |]. split; [reflexivity | constructor].
Qed.

(** ** Lists of objects *)

Lemma update_length {A : Type} (f : A -> A) (l : list A) (i : nat) :
  List.length (update i f l) = List.length l.
Proof.
  revert i. induction l as [| x l IH]; intros [| i]; simpl; auto.
Qed.

Lemma update_last {A : Type} (f : A -> A) (x : A) (l : list A) :
  update (List.length l) f (l ++ [x]) = l ++ [f x].
Proof.
  induction l as [| y l IH]; simpl; [reflexivity | f_equal; exact IH].
Qed.

Lemma nth_error_last {A : Type} (x : A) (l : list A) :
  nth_error (l ++ [x]) (List.length l) = Some x.
Proof.
  rewrite nth_error_app2 by lia. rewrite Nat.sub_diag. reflexivity.
Qed.

Lemma filter_allDisposed (gs : list Geometry) :
  allDisposed gs -> filter isLive gs = [].
Proof.
  induction 1 as [| G gs HG _ IH]; [reflexivity |].
  simpl. unfold isLive at 1. rewrite HG. exact IH.
Qed.

Lemma live_allDisposed (w : World) :
  allDisposed (geometries w) -> (liveFields w <= 1)%nat.
Proof.
  intros H. unfold liveFields. rewrite filter_allDisposed by exact H.
  simpl. lia.
Qed.

Lemma live_current (g : nat) (G : Geometry) (w : World) :
  current g G w -> (liveFields w <= 1)%nat.
Proof.
  intros (gs & E & Hd & _). unfold liveFields.
  rewrite E, filter_app, filter_allDisposed by exact Hd.
  simpl. destruct (isLive G); simpl; lia.
Qed.

Lemma allDisposed_after_dispose (gs : list Geometry) (G : Geometry) :
  allDisposed gs -> allDisposed (gs ++ [dispose_geometry G]).
Proof.
  intros H. apply Forall_app. split; [exact H |].
  constructor; [reflexivity | constructor].
Qed.

(** An entry with no field in the scene, and no draw call. *)
Lemma entrySafe_empty (e : event) (w : World) :
  scene w = [] -> (liveFields w <= 1)%nat -> e <> Render -> entrySafe (e, w).
Proof.
  intros Hs Hl He. unfold entrySafe, drawn. cbn [fst snd]. rewrite Hs.
  split; [exact Hl |]. split; [constructor |]. intros ->. contradiction.
Qed.

Lemma drawn_inScene n k g m o G w :
  inScene n k g m o G w -> drawn w = [Some G].
Proof.
  intros H. destruct (st_objects _ _ _ _ _ _ _ H) as (os & p & Eo & Ho & Hp).
  destruct (st_geometry _ _ _ _ _ _ _ H) as (gs & Eg & _ & Hg & _).
  unfold drawn, fieldOf. rewrite (st_scene _ _ _ _ _ _ _ H). cbn [map].
  rewrite Eo, <- Ho, nth_error_last, Hp, Eg, <- Hg, nth_error_last.
  reflexivity.
Qed.

Lemma entrySafe_settled (e : event) n k g m o G w :
  settled n k g m o G w -> entrySafe (e, w).
Proof.
  intros [H HG]. unfold entrySafe. cbn [fst snd].
  rewrite (drawn_inScene _ _ _ _ _ _ _ H).
  split; [eapply live_current, st_geometry; exact H |].
  split.
  - constructor; [| constructor].
    exists G, (Z.to_nat n). split; [reflexivity | exact HG].
  - intros _. exists G. split; [reflexivity |].
    rewrite (st_count _ _ _ _ _ _ _ H). exact HG.
Qed.

Lemma triple_assume {A : Type} (phi : Prop) (P : World -> Prop) (m : Prog A)
  (Q : Post A) :
  (forall w, P w -> phi) -> (phi -> triple P m Q) -> triple P m Q.
Proof. intros H1 H2 w Hw. exact (H2 (H1 w Hw) w Hw). Qed.

(** ** The steps of [createParticles] *)

Section HostFacts.

Variable random : nat -> R.

Lemma scene_remove_triple n k g m o G :
  triple (inScene n k g m o G) (scene_remove o)
         (logged [SceneRemove o] (withPoints n k g m o G)).
Proof.
  assert (Hrm : forall w, inScene n k g m o G w ->
                          withPoints n k g m o G
                            (set_scene (remove Nat.eq_dec o) w)).
  { intros w H. destruct H. constructor; try assumption.
    cbn [scene set_scene]. rewrite st_scene0. cbn [remove].
    destruct (Nat.eq_dec o o); [reflexivity | contradiction]. }
  apply triple_emit; [exact Hrm |].
  intros w H. specialize (Hrm w H).
  apply entrySafe_empty; [apply Hrm | | discriminate].
  eapply live_current, wp_geometry, Hrm.
Qed.

Lemma geometry_dispose_triple n k g m o G :
  triple (withPoints n k g m o G) geometry_dispose
         (logged [GeometryDispose g]
                 (fun w => cleared n k (S g) (S m) (S o) w
                           /\ material w = Some m)).
Proof.
  assert (Hd : forall w, withPoints n k g m o G w ->
                cleared n k (S g) (S m) (S o)
                  (set_geometries (update g dispose_geometry) w)
                /\ material (set_geometries (update g dispose_geometry) w)
                   = Some m).
  { intros w H. destruct H.
    destruct wp_geometry0 as (gs & Eg & Hgs & Hlen & Hg).
    destruct wp_objects0 as (os & p & Eo & Ho & _).
    split; [| assumption].
    constructor; try assumption; cbn [geometries set_geometries objects].
    - rewrite Eg, <- Hlen, update_last.
      apply allDisposed_after_dispose. exact Hgs.
    - rewrite update_length, Eg, length_app. simpl. lia.
    - rewrite Eo, length_app. simpl. lia. }
  unfold geometry_dispose.
  apply triple_deref_bind with (i := g).
  - intros w H. destruct (wp_geometry _ _ _ _ _ _ _ H) as (gs & _ & _ & _ & Hg).
    exact Hg.
  - apply triple_emit; [exact Hd |].
    intros w H. destruct (Hd w H) as [Hc _].
    apply entrySafe_empty; [apply Hc | | discriminate].
    apply live_allDisposed, Hc.
Qed.

Lemma material_dispose_triple n k g m o m0 :
  triple (fun w => cleared n k g m o w /\ material w = Some m0)
         material_dispose
         (logged [MaterialDispose m0] (cleared n k g m o)).
Proof.
  assert (Hd : forall w, cleared n k g m o w /\ material w = Some m0 ->
                cleared n k g m o
                  (set_materials (update m0 dispose_material) w)).
  { intros w [H _]. destruct H.
    constructor; try assumption. cbn [materials set_materials].
    rewrite update_length. assumption. }
  unfold material_dispose.
  apply triple_deref_bind with (i := m0); [intros w [_ H]; exact H |].
  apply triple_emit; [exact Hd |].
  intros w H. specialize (Hd w H).
  apply entrySafe_empty; [apply Hd | | discriminate].
  apply live_allDisposed, Hd.
Qed.

Lemma new_BufferGeometry_triple n k g m o :
  triple (cleared n k g m o) new_BufferGeometry
         (logged [GeometryNew g] (building n k g m o emptyGeometry)).
Proof.
  unfold new_BufferGeometry.
  apply triple_get_bind. intros gs.
  apply (triple_assume (List.length gs = g)).
  { intros w [H <-]. apply H. }
  intros <-.
  assert (Hb : forall w, cleared n k (List.length gs) m o w /\ geometries w = gs ->
                building n k (List.length gs) m o emptyGeometry
                  (set_geometry (Some (List.length gs))
                     (set_geometries (fun l => l ++ [emptyGeometry]) w))).
  { intros w [H E]. destruct H.
    constructor; try assumption.
    exists gs. cbn [geometries geometry set_geometry set_geometries].
    rewrite E. repeat split. rewrite <- E. assumption. }
  apply triple_emit; [exact Hb |].
  intros w H. specialize (Hb w H).
  apply entrySafe_empty; [apply Hb | | discriminate].
  eapply live_current, bu_geometry, Hb.
Qed.

Lemma setAttribute_triple n k g m o G name arr size :
  triple (building n k g m o G) (geometry_setAttribute name arr size)
         (logged [AttributeSet g name]
                 (building n k g m o
                    (setAttribute name {| array := arr; itemSize := size |} G))).
Proof.
  assert (Hb : forall w, building n k g m o G w ->
                building n k g m o
                  (setAttribute name {| array := arr; itemSize := size |} G)
                  (set_geometries
                     (update g (setAttribute name
                                  {| array := arr; itemSize := size |})) w)).
  { intros w H. destruct H.
    destruct bu_geometry0 as (gs & Eg & Hgs & Hlen & Hg).
    constructor; try assumption.
    exists gs. cbn [geometries geometry set_geometries].
    rewrite Eg, <- Hlen, update_last. repeat split; try assumption.
    rewrite Hlen. assumption. }
  unfold geometry_setAttribute.
  apply triple_deref_bind with (i := g).
  - intros w H. destruct (bu_geometry _ _ _ _ _ _ _ H) as (gs & _ & _ & _ & Hg).
    exact Hg.
  - apply triple_emit; [exact Hb |].
    intros w H. specialize (Hb w H).
    apply entrySafe_empty; [apply Hb | | discriminate].
    eapply live_current, bu_geometry, Hb.
Qed.

Lemma new_ShaderMaterial_triple n k g m o G :
  triple (building n k g m o G) new_ShaderMaterial
         (logged [MaterialNew m] (withMaterial n k g m o G)).
Proof.
  unfold new_ShaderMaterial.
  apply triple_get_bind. intros ms.
  apply (triple_assume (List.length ms = m)).
  { intros w [H <-]. apply H. }
  intros <-.
  match goal with
  | |- triple _ (emit _ ?f) _ =>
      assert (Hb : forall w,
                 building n k g (List.length ms) o G w /\ materials w = ms ->
                 withMaterial n k g (List.length ms) o G (f w))
  end.
  { intros w [H E]. destruct H.
    constructor; try assumption.
    - cbn [material set_material]. reflexivity.
    - cbn [materials set_material set_materials].
      rewrite E, length_app. simpl. lia. }
  apply triple_emit; [exact Hb |].
  intros w H. specialize (Hb w H).
  apply entrySafe_empty; [apply Hb | | discriminate].
  eapply live_current, wm_geometry, Hb.
Qed.

Lemma new_Points_triple n k g m o G :
  triple (withMaterial n k g m o G) new_Points
         (logged [PointsNew o g m] (withPoints n k g m o G)).
Proof.
  unfold new_Points.
  apply triple_deref_bind with (i := g).
  { intros w H. destruct (wm_geometry _ _ _ _ _ _ _ H) as (gs & _ & _ & _ & Hg).
    exact Hg. }
  apply triple_deref_bind with (i := m).
  { intros w H. apply H. }
  apply triple_get_bind. intros os.
  apply (triple_assume (List.length os = o)).
  { intros w [H <-]. apply H. }
  intros <-.
  match goal with
  | |- triple _ (emit _ ?f) _ =>
      assert (Hb : forall w,
                 withMaterial n k g m (List.length os) G w /\ objects w = os ->
                 withPoints n k g m (List.length os) G (f w))
  end.
  { intros w [H E]. destruct H.
    constructor; try assumption.
    - reflexivity.
    - cbn [objects set_particleOrb set_objects]. rewrite E.
      do 2 eexists. repeat split. }
  apply triple_emit; [exact Hb |].
  intros w H. specialize (Hb w H).
  apply entrySafe_empty; [apply Hb | | discriminate].
  eapply live_current, wp_geometry, Hb.
Qed.

Lemma scene_add_triple n k g m o G :
  fullyBuilt (Z.to_nat n) G = true ->
  triple (withPoints n k g m o G) scene_add
         (logged [SceneAdd o] (settled n k g m o G)).
Proof.
  intros HG.
  assert (Hb : forall w, withPoints n k g m o G w ->
                settled n k g m o G (set_scene (fun l => l ++ [o]) w)).
  { intros w H. destruct H.
    split; [| exact HG].
    constructor; try assumption.
    cbn [scene set_scene]. rewrite wp_scene0. reflexivity. }
  unfold scene_add.
  apply triple_deref_bind with (i := o); [intros w H; apply H |].
  apply triple_emit; [exact Hb |].
  intros w H. eapply entrySafe_settled, Hb, H.
Qed.

End HostFacts.

(** ** [createParticles] as a whole *)

Section CreateParticles.

Variable random : nat -> R.

Lemma fillArrays_triple n k g m o G :
  triple (building n k g m o G) (fillArrays random)
         (fun b w l =>
            b = {| positions := pushedPositions random (Z.to_nat n) k;
                   restingPositions := pushedPositions random (Z.to_nat n) k;
                   randoms := pushedRandoms random (Z.to_nat n) k |}
            /\ l = []
            /\ building n (k + 4 * Z.to_nat n) g m o G w).
Proof.
  intros w H. unfold fillArrays, bind, get.
  rewrite (bu_count _ _ _ _ _ _ _ H), (bu_calls _ _ _ _ _ _ _ H).
  rewrite loop_closed_form. cbn [positions restingPositions randoms app].
  do 3 eexists. split; [reflexivity |].
  split; [reflexivity |]. split; [reflexivity |].
  destruct H. constructor; try assumption. reflexivity.
Qed.

(** The second half: from a world with nothing in the scene and nothing
    live to a world with the new field in the scene. *)
Lemma build_triple n k g m o :
  triple (cleared n k g m o)
    (new_BufferGeometry ;;
     b <- fillArrays random ;;
     geometry_setAttribute "position" (positions b) 3 ;;
     geometry_setAttribute "restingPosition" (restingPositions b) 3 ;;
     geometry_setAttribute "aRandom" (randoms b) 1 ;;
     new_ShaderMaterial ;;
     new_Points ;;
     scene_add)
    (logged (buildEvents g m o)
       (settled n (k + 4 * Z.to_nat n) g m o
          (builtGeometry random (Z.to_nat n) k))).
Proof.
  set (N := Z.to_nat n). set (k' := (k + 4 * N)%nat).
  apply (triple_seq _ (building n k g m o emptyGeometry) _ _ _
           [GeometryNew g]
           [AttributeSet g "position"; AttributeSet g "restingPosition";
            AttributeSet g "aRandom"; MaterialNew m; PointsNew o g m;
            SceneAdd o]).
  { apply new_BufferGeometry_triple. }
  eapply triple_bind; [apply fillArrays_triple |].
  intros b l1.
  apply (triple_assume
           (b = {| positions := pushedPositions random N k;
                   restingPositions := pushedPositions random N k;
                   randoms := pushedRandoms random N k |} /\ l1 = [])).
  { intros w (Hb & Hl & _). split; assumption. }
  intros [-> ->]. cbn [positions restingPositions randoms app].
  apply (triple_pre _ (building n k' g m o emptyGeometry)).
  { intros w (_ & _ & H). exact H. }
  eapply (triple_seq _ _ _ _ _ [AttributeSet g "position"]);
    [apply setAttribute_triple |].
  eapply (triple_seq _ _ _ _ _ [AttributeSet g "restingPosition"]);
    [apply setAttribute_triple |].
  eapply (triple_seq _ _ _ _ _ [AttributeSet g "aRandom"]);
    [apply setAttribute_triple |].
  eapply (triple_seq _ _ _ _ _ [MaterialNew m]);
    [apply new_ShaderMaterial_triple |].
  eapply (triple_seq _ _ _ _ _ [PointsNew o g m]);
    [apply new_Points_triple |].
  apply scene_add_triple. apply builtGeometry_fullyBuilt.
Qed.

(** The first call: no field yet. *)
Lemma createParticles_first n k g m o :
  triple (fun w => cleared n k g m o w /\ particleOrb w = None)
    (createParticles random)
    (logged (buildEvents g m o)
       (settled n (k + 4 * Z.to_nat n) g m o
          (builtGeometry random (Z.to_nat n) k))).
Proof.
  unfold createParticles.
  apply (triple_seq _ (cleared n k g m o) _ _ _ [] (buildEvents g m o));
    [| apply build_triple].
  apply triple_get_bind. intros v.
  apply (triple_assume (v = None)).
  { intros w [[_ H] <-]. exact H. }
  intros ->. apply triple_ret. intros w [[H _] _]. exact H.
Qed.

(** A regeneration: the old field is taken out of the scene and released,
    then the new one is built and added. *)
Lemma createParticles_again n k g m o G :
  triple (inScene n k g m o G) (createParticles random)
    (logged (releaseEvents g m o ++ buildEvents (S g) (S m) (S o))
       (settled n (k + 4 * Z.to_nat n) (S g) (S m) (S o)
          (builtGeometry random (Z.to_nat n) k))).
Proof.
  unfold createParticles.
  apply (triple_seq _ (cleared n k (S g) (S m) (S o)) _ _ _
           (releaseEvents g m o) (buildEvents (S g) (S m) (S o)));
    [| apply build_triple].
  apply triple_get_bind. intros v.
  apply (triple_assume (v = Some o)).
  { intros w [H <-]. apply H. }
  intros ->.
  apply (triple_pre _ (inScene n k g m o G)); [intros w [H _]; exact H |].
  eapply (triple_seq _ _ _ _ _ [SceneRemove o]
            [GeometryDispose g; MaterialDispose m]);
    [apply scene_remove_triple |].
  eapply (triple_seq _ _ _ _ _ [GeometryDispose g] [MaterialDispose m]);
    [apply geometry_dispose_triple | apply material_dispose_triple].
Qed.

End CreateParticles.

(** ** The callbacks *)

Lemma inScene_set_materials (f : Material -> Material) n k g m o G w i :
  inScene n k g m o G w -> inScene n k g m o G (set_materials (update i f) w).
Proof.
  intros H. destruct H. constructor; try assumption.
  cbn [materials set_materials]. rewrite update_length. assumption.
Qed.

Lemma inScene_set_rotation (r : R) n k g m o G w :
  inScene n k g m o G w ->
  inScene n k g m o G (set_objects (update o (with_rotation_y r)) w).
Proof.
  intros H. destruct H. constructor; try assumption.
  destruct st_objects0 as (os & p & E & Ho & Hp).
  exists os, (with_rotation_y r p). cbn [objects set_objects].
  rewrite E, <- Ho, update_last. repeat split. exact Hp.
Qed.

Lemma inScene_set_mouse (v : rvec2) n k g m o G w :
  inScene n k g m o G w -> inScene n k g m o G (set_mouse v w).
Proof. intros H. destruct H. constructor; assumption. Qed.

Lemma inScene_set_PARTICLE_COUNT (n' : Z) n k g m o G w :
  inScene n k g m o G w -> inScene n' k g m o G (set_PARTICLE_COUNT n' w).
Proof. intros H. destruct H. constructor; try assumption. reflexivity. Qed.

Lemma uniform_change_triple (f : Material -> Material) n k g m o G :
  triple (settled n k g m o G)
         (i <- deref material ;; modify (set_materials (update i f)))
         (logged [] (settled n k g m o G)).
Proof.
  apply triple_deref_bind with (i := m); [intros w [H _]; apply H |].
  apply triple_modify. intros w [H HG].
  split; [apply inScene_set_materials; exact H | exact HG].
Qed.

Section Callbacks.

Variable random : nat -> R.

Lemma animate_triple (t : R) n k g m o G :
  triple (settled n k g m o G) (animate t)
         (logged [Render] (settled n k g m o G)).
Proof.
  unfold animate.
  apply triple_deref_bind with (i := m); [intros w [H _]; apply H |].
  eapply (triple_seq _ (settled n k g m o G) _ _ _ [] [Render]).
  { apply triple_modify. intros w [H HG].
    split; [apply inScene_set_materials; exact H | exact HG]. }
  apply triple_deref_bind with (i := o); [intros w [H _]; apply H |].
  eapply (triple_seq _ (settled n k g m o G) _ _ _ [] [Render]).
  { apply triple_modify. intros w [H HG].
    split; [apply inScene_set_rotation; exact H | exact HG]. }
  apply triple_emit; [auto |].
  intros w H. eapply entrySafe_settled, H.
Qed.

Lemma logged_safely (P S : World -> Prop) (m : Prog unit) (evs : list event) :
  triple P m (logged evs S) -> triple P m (safely S).
Proof.
  intros H w Hw. destruct (H w Hw) as ([] & w' & l & E & HS & _ & Hl).
  exists tt, w', l. repeat split; assumption.
Qed.

Lemma Settled_intro n k g m o G (w : World) :
  settled n k g m o G w -> Settled w.
Proof. intros H. exists n, k, g, m, o, G. exact H. Qed.

Lemma safely_Settled (P : World -> Prop) (m : Prog unit) n k g m0 o G :
  triple P m (safely (settled n k g m0 o G)) -> triple P m (safely Settled).
Proof.
  intros H w Hw. destruct (H w Hw) as ([] & w' & l & E & HS & Hl).
  exists tt, w', l. split; [exact E |]. split; [| exact Hl].
  eapply Settled_intro, HS.
Qed.

Lemma particleCountChange_triple (n' : Z) n k g m o G :
  triple (settled n k g m o G) (handle random (ParticleCountChange n'))
    (logged (releaseEvents g m o ++ buildEvents (S g) (S m) (S o))
       (settled n' (k + 4 * Z.to_nat n') (S g) (S m) (S o)
          (builtGeometry random (Z.to_nat n') k))).
Proof.
  cbn [handle].
  eapply (triple_seq _ (inScene n' k g m o G) _ _ _ []).
  - apply triple_modify. intros w [H _].
    apply (inScene_set_PARTICLE_COUNT n' n). exact H.
  - apply createParticles_again.
Qed.

Lemma handle_triple (c : callback) :
  forall w, Settled w ->
  exists w' l, handle random c w = Ok tt w' l /\ Settled w' /\ Forall entrySafe l.
Proof.
  intros w (n & k & g & m & o & G & H).
  assert (T : triple (settled n k g m o G) (handle random c) (safely Settled)).
  { destruct c; cbn [handle].
    - eapply safely_Settled; eapply logged_safely; apply animate_triple.
    - eapply safely_Settled; eapply logged_safely; apply triple_modify.
      intros w0 [H0 HG]. split; [apply inScene_set_mouse, H0 | exact HG].
    - eapply safely_Settled; eapply logged_safely; apply triple_modify.
      intros w0 [H0 HG]. split; [apply inScene_set_mouse, H0 | exact HG].
    - eapply safely_Settled; eapply logged_safely; apply particleCountChange_triple.
    - eapply safely_Settled; eapply logged_safely; apply uniform_change_triple.
    - eapply safely_Settled; eapply logged_safely; apply uniform_change_triple.
    - eapply safely_Settled; eapply logged_safely; apply uniform_change_triple.
    - eapply safely_Settled; eapply logged_safely; apply uniform_change_triple. }
  destruct (T w H) as ([] & w' & l & E & HS & Hl).
  exists w', l. auto.
Qed.

Lemma handleAll_safe (cs : list callback) :
  forall w, Settled w ->
  exists w' l,
    handleAll random cs w = Ok tt w' l /\ Settled w' /\ Forall entrySafe l.
Proof.
  induction cs as [| c cs IH]; intros w Hw.
  - exists w, []. split; [reflexivity |]. split; [exact Hw | constructor].
  - destruct (handle_triple c w Hw) as (w1 & l1 & E1 & H1 & S1).
    destruct (IH w1 H1) as (w2 & l2 & E2 & H2 & S2).
    exists w2, (l1 ++ l2). cbn [handleAll]. unfold bind. rewrite E1, E2.
    split; [reflexivity |]. split; [exact H2 |]. apply Forall_app. auto.
Qed.

Lemma initial_cleared :
  cleared 100000 0 0 0 0 initial /\ particleOrb initial = None.
Proof. split; [constructor; try reflexivity; constructor | reflexivity]. Qed.

(** The script and any callbacks after it end normally, every event of the
    run is safe, and the run ends between two callbacks. *)
Lemma run_safe (t : R) (cs : list callback) :
  exists w l,
    run random t cs initial = Ok tt w l /\ Settled w /\ Forall entrySafe l.
Proof.
  destruct (createParticles_first random 100000 0 0 0 0 initial initial_cleared)
    as ([] & w1 & l1 & E1 & H1 & _ & S1).
  destruct (animate_triple t _ _ _ _ _ _ w1 H1)
    as ([] & w2 & l2 & E2 & H2 & _ & S2).
  destruct (handleAll_safe cs w2 (Settled_intro _ _ _ _ _ _ _ H2))
    as (w3 & l3 & E3 & H3 & S3).
  exists w3, (l1 ++ l2 ++ l3). unfold run, bind. rewrite E1, E2, E3.
  split; [reflexivity |]. split; [exact H3 |].
  repeat (apply Forall_app; split); assumption.
Qed.

End Callbacks.

(** ** The generated field *)

Section GeneratedField.

Variable random : nat -> R.

Lemma count_pushedPositions (n k : nat) :
  count {| array := pushedPositions random n k; itemSize := 3 |} = n.
Proof.
  unfold count. cbn [array itemSize]. rewrite pushedPositions_length.
  apply Nat.div_mul. discriminate.
Qed.

Lemma count_pushedRandoms (n k : nat) :
  count {| array := pushedRandoms random n k; itemSize := 1 |} = n.
Proof.
  unfold count. cbn [array itemSize]. rewrite pushedRandoms_length.
  apply Nat.div_mul. discriminate.
Qed.

Lemma settled_generated n k' k g m o w :
  settled n k' g m o (builtGeometry random (Z.to_nat n) k) w ->
  generatedField random (Z.to_nat n) k w.
Proof.
  intros [H _]. set (N := Z.to_nat n).
  destruct (st_geometry _ _ _ _ _ _ _ H) as (gs & Eg & _ & Hlen & Hg).
  destruct (builtGeometry_attributes random N k) as (Ap & Ar & As).
  exists g, (builtGeometry random N k).
  do 3 eexists.
  split; [exact Hg |].
  split; [rewrite Eg, <- Hlen; apply nth_error_last |].
  split; [eapply drawn_inScene; exact H |].
  split; [exact Ap |]. split; [exact Ar |]. split; [exact As |].
  cbn [array].
  split.
  { rewrite pushedPositions_length, pushedRandoms_length. lia. }
  split.
  { rewrite count_pushedPositions, count_pushedRandoms. auto. }
  intros i Hi.
  destruct (builtGeometry_item random N k i Hi) as [Hxyz Hx].
  split; [exact Hxyz |]. split; [reflexivity |]. split; [exact Hx |].
  unfold vertexAttributes. rewrite Ap, Ar, As, Hxyz, Hx. reflexivity.
Qed.

(** The first call of the script, for any initial count. *)
Lemma first_generation (n : Z) :
  exists w l,
    createParticles random (set_PARTICLE_COUNT n initial) = Ok tt w l
    /\ generatedField random (Z.to_nat n) 0 w.
Proof.
  assert (H0 : cleared n 0 0 0 0 (set_PARTICLE_COUNT n initial)
               /\ particleOrb (set_PARTICLE_COUNT n initial) = None).
  { split; [constructor; try reflexivity; constructor | reflexivity]. }
  destruct (createParticles_first random n 0 0 0 0 _ H0)
    as ([] & w & l & E & H & _).
  exists w, l. split; [exact E |]. eapply settled_generated, H.
Qed.

(** A change of the particle count after any run of the script. *)
Lemma regeneration (t : R) (cs : list callback) (n : Z) :
  exists w l g m o w' l',
    run random t cs initial = Ok tt w l
    /\ Forall entrySafe l
    /\ geometry w = Some g /\ material w = Some m /\ particleOrb w = Some o
    /\ handle random (ParticleCountChange n) w = Ok tt w' l'
    /\ map fst l' = releaseEvents g m o ++ buildEvents (S g) (S m) (S o)
    /\ Forall entrySafe l'
    /\ generatedField random (Z.to_nat n) (randomCalls w) w'.
Proof.
  destruct (run_safe random t cs) as (w & l & E & (n0 & k & g & m & o & G & H) & Hl).
  destruct (particleCountChange_triple random n _ _ _ _ _ _ w H)
    as ([] & w' & l' & E' & H' & Hev & Hl').
  exists w, l, g, m, o, w', l'.
  destruct H as [H HG].
  split; [exact E |]. split; [exact Hl |].
  split; [destruct (st_geometry _ _ _ _ _ _ _ H) as (? & _ & _ & _ & Hg); exact Hg |].
  split; [apply H |]. split; [apply H |].
  split; [exact E' |]. split; [exact Hev |]. split; [exact Hl' |].
  rewrite (st_calls _ _ _ _ _ _ _ H). eapply settled_generated, H'.
Qed.

End GeneratedField.

(** ** Regeneration *)

(** C3, as the code has it.  In every run of the script, whatever callbacks
    arrive: the run ends normally and every event of it is safe (at most
    one field is live, every field in the scene is fully built, and a draw
    call sees exactly one field, of [PARTICLE_COUNT] particles).  A change
    of the particle count then takes the old field out of the scene,
    releases its geometry and its material, and only then creates the new
    geometry, sets its three attributes, creates the material and the
    points and adds them to the scene, all inside the one callback; every
    one of these events is safe too. *)
Theorem regeneration_releases_then_builds
  (random : nat -> R) (t : R) (cs : list callback) (n : Z) :
  exists w l g m o w' l',
    run random t cs initial = Ok tt w l
    /\ Forall entrySafe l
    /\ geometry w = Some g /\ material w = Some m /\ particleOrb w = Some o
    /\ handle random (ParticleCountChange n) w = Ok tt w' l'
    /\ map fst l'
       = [SceneRemove o; GeometryDispose g; MaterialDispose m;
          GeometryNew (S g); AttributeSet (S g) "position";
          AttributeSet (S g) "restingPosition"; AttributeSet (S g) "aRandom";
          MaterialNew (S m); PointsNew (S o) (S g) (S m); SceneAdd (S o)]
    /\ Forall entrySafe l'
    /\ geometry w' = Some (S g) /\ material w' = Some (S m)
    /\ particleOrb w' = Some (S o) /\ scene w' = [S o].
Proof.
  destruct (run_safe random t cs)
    as (w & l & E & (n0 & k & g & m & o & G & H) & Hl).
  destruct (particleCountChange_triple random n _ _ _ _ _ _ w H)
    as ([] & w' & l' & E' & [H' _] & Hev & Hl').
  exists w, l, g, m, o, w', l'.
  destruct H as [H HG].
  split; [exact E |]. split; [exact Hl |].
  split; [destruct (st_geometry _ _ _ _ _ _ _ H) as (? & _ & _ & _ & Hg);
          exact Hg |].
  split; [apply H |]. split; [apply H |].
  split; [exact E' |]. split; [exact Hev |]. split; [exact Hl' |].
  split; [destruct (st_geometry _ _ _ _ _ _ _ H') as (? & _ & _ & _ & Hg);
          exact Hg |].
  split; [apply H' |]. split; apply H'.
Qed.

(** C3, as stated, fails: when the count changes from 100000 to 50000 right
    after start-up, the old geometry is disposed before any new field has
    been added to the scene. *)
Lemma release_after_swap_counterexample :
  ~ (forall w l w' l',
        run (fun _ => 0) 0 [] initial = Ok tt w l ->
        handle (fun _ => 0) (ParticleCountChange 50000) w = Ok tt w' l' ->
        releaseAfterSwap false (map fst l') = true).
Proof.
  intros C.
  destruct (regeneration (fun _ => 0) 0 [] 50000)
    as (w & l & g & m & o & w' & l' & E & _ & _ & _ & _ & E' & Hev & _).
  specialize (C w l w' l' E E'). rewrite Hev in C. discriminate C.
Qed.

(** ** The shape of the generated field *)

(** C4. For every particle count [n] in the allowed range, the generator,
    at start-up as well as on a change of the count after any run, yields a
    field of exactly [n] particles: the [position] and [restingPosition]
    arrays hold [3 * n] numbers and the [aRandom] array [n], each attribute
    counts [n] items, and item [i] of the rest positions and item [i] of the
    seeds come from the same iteration [i] of the loop (the draws
    [4 * i] to [4 * i + 3] after the ones made before). *)
Theorem generated_field_shape
  (random : nat -> R) (t : R) (cs : list callback) (n : Z) :
  (10000 <= n <= 200000)%Z ->
  Z.of_nat (Z.to_nat n) = n
  /\ (exists w l,
        createParticles random (set_PARTICLE_COUNT n initial) = Ok tt w l
        /\ generatedField random (Z.to_nat n) 0 w)
  /\ (exists w l w' l',
        run random t cs initial = Ok tt w l
        /\ handle random (ParticleCountChange n) w = Ok tt w' l'
        /\ generatedField random (Z.to_nat n) (randomCalls w) w').
Proof.
  intros Hn. split; [lia |]. split.
  - apply first_generation.
  - destruct (regeneration random t cs n)
      as (w & l & g & m & o & w' & l' & E & _ & _ & _ & _ & E' & _ & _ & HG).
    exists w, l, w', l'. auto.
Qed.

Lemma generated_field_shape_witness :
  (10000 <= 50000 <= 200000)%Z
  /\ exists w l w' l',
      run (fun _ => 0) 0 [] initial = Ok tt w l
      /\ handle (fun _ => 0) (ParticleCountChange 50000) w = Ok tt w' l'
      /\ generatedField (fun _ => 0) (Z.to_nat 50000) (randomCalls w) w'.
Proof.
  split; [lia |].
  apply (generated_field_shape (fun _ => 0) 0 [] 50000). lia.
Defined.

(** * Further properties of the code *)

(** ** The direction of the repulsion *)

Lemma length_finite_inv (v : vec2) (d : R) :
  length v = fin d ->
  exists x y, v = Vec2 (fin x) (fin y) /\ d = sqrt (x * x + y * y).
Proof.
  destruct v as [[x|] [y|]]; unfold length, fsqrt, fadd, fmul, lift2, fin;
    cbn [x2 y2]; try discriminate.
  destruct (Rlt_dec (x * x + y * y) 0); [discriminate |].
  intros H. injection H as <-. exists x, y. split; reflexivity.
Qed.

Lemma screenXY_of_distance (u : Uniforms) (a : Attributes) (d : R) :
  distance u a = fin d ->
  exists sx sy,
    screenXY u a = Vec2 (fin sx) (fin sy)
    /\ d = sqrt ((sx - rx2 (uMouse u)) * (sx - rx2 (uMouse u))
                 + (sy - ry2 (uMouse u)) * (sy - ry2 (uMouse u))).
Proof.
  unfold distance. intros H.
  destruct (length_finite_inv _ _ H) as (x & y & E & Hd).
  destruct (screenXY u a) as [[sx|] [sy|]];
    unfold vsub2, vec2_of, fsub, lift2, fin in E; cbn [x2 y2] in E;
    try discriminate.
  injection E as <- <-. exists sx, sy. split; [reflexivity | exact Hd].
Qed.

Lemma direction_of_distance (u : Uniforms) (a : Attributes) (d : R) :
  distance u a = fin d -> 0 < d ->
  exists sx sy,
    screenXY u a = Vec2 (fin sx) (fin sy)
    /\ d * d = (sx - rx2 (uMouse u)) * (sx - rx2 (uMouse u))
               + (sy - ry2 (uMouse u)) * (sy - ry2 (uMouse u))
    /\ direction u a = Vec2 (fin ((sx - rx2 (uMouse u)) / d))
                            (fin ((sy - ry2 (uMouse u)) / d)).
Proof.
  intros H Hd.
  destruct (screenXY_of_distance u a d H) as (sx & sy & E & Hs).
  exists sx, sy. split; [exact E |]. split.
  - rewrite Hs. apply sqrt_sqrt.
    pose proof (Rle_0_sqr (sx - rx2 (uMouse u))) as H1.
    pose proof (Rle_0_sqr (sy - ry2 (uMouse u))) as H2.
    unfold Rsqr in H1, H2. lra.
  - unfold direction. fold (distance u a) in *.
    unfold normalize.
    change (length (vsub2 (screenXY u a) (vec2_of (uMouse u))))
      with (distance u a).
    rewrite H, E. unfold vsub2, vec2_of, fsub, lift2, fin. cbn [x2 y2].
    rewrite !(fdiv_fin _ d) by lra. reflexivity.
Qed.

Lemma repulsion_of_distance (u : Uniforms) (a : Attributes) (d : R) :
  distance u a = fin d -> 0 < d ->
  let m := if Rlt_dec d (uInteractionRadius u)
           then (1 - d / uInteractionRadius u) * uRepulsionStrength u
           else 0 in
  exists sx sy dx dy,
    screenXY u a = Vec2 (fin sx) (fin sy)
    /\ direction u a = Vec2 (fin dx) (fin dy)
    /\ dx * d = sx - rx2 (uMouse u) /\ dy * d = sy - ry2 (uMouse u)
    /\ dx * dx + dy * dy = 1
    /\ repulsionStrength u a = fin m
    /\ repulsion u a = Vec2 (fin (dx * m)) (fin (dy * m)).
Proof.
  intros H Hd m.
  destruct (direction_of_distance u a d H Hd) as (sx & sy & E & Hsq & Hdir).
  exists sx, sy, ((sx - rx2 (uMouse u)) / d), ((sy - ry2 (uMouse u)) / d).
  split; [exact E |]. split; [exact Hdir |].
  split; [field; lra |]. split; [field; lra |].
  split.
  { replace ((sx - rx2 (uMouse u)) / d * ((sx - rx2 (uMouse u)) / d)
             + (sy - ry2 (uMouse u)) / d * ((sy - ry2 (uMouse u)) / d))
      with (((sx - rx2 (uMouse u)) * (sx - rx2 (uMouse u))
             + (sy - ry2 (uMouse u)) * (sy - ry2 (uMouse u))) / (d * d))
      by (field; lra).
    rewrite <- Hsq. field. lra. }
  assert (Hm : repulsionStrength u a = fin m).
  { unfold repulsionStrength. rewrite H. apply repulsionMagnitude_fin. lra. }
  split; [exact Hm |].
  unfold repulsion. rewrite Hdir, Hm. reflexivity.
Qed.

(** X2. Away from the singularity the direction is the unit vector from the
    cursor to the projected particle, and the repulsion is that vector
    scaled by the magnitude. *)
Theorem direction_unit_away (u : Uniforms) (a : Attributes) (d : R) :
  distance u a = fin d -> 0 < d ->
  exists sx sy dx dy m,
    screenXY u a = Vec2 (fin sx) (fin sy)
    /\ direction u a = Vec2 (fin dx) (fin dy)
    /\ dx * d = sx - rx2 (uMouse u) /\ dy * d = sy - ry2 (uMouse u)
    /\ dx * dx + dy * dy = 1
    /\ repulsionStrength u a = fin m
    /\ repulsion u a = Vec2 (fin (dx * m)) (fin (dy * m)).
Proof.
  intros H Hd.
  destruct (repulsion_of_distance u a d H Hd)
    as (sx & sy & dx & dy & Hrest).
  exists sx, sy, dx, dy. eexists. exact Hrest.
Qed.

Lemma direction_unit_away_witness :
  (distance scenarioFrame scenarioParticle = fin 0.05 /\ 0 < 0.05)
  /\ exists dx dy, direction scenarioFrame scenarioParticle
                   = Vec2 (fin dx) (fin dy)
                   /\ dx * dx + dy * dy = 1.
Proof.
  assert (Hd : 0 < 0.05) by lra.
  split; [split; [exact scenario_distance | exact Hd] |].
  destruct (direction_unit_away scenarioFrame scenarioParticle 0.05
              scenario_distance Hd)
    as (sx & sy & dx & dy & m & _ & Hdir & _ & _ & Hu & _).
  exists dx, dy. split; assumption.
Defined.

(** The scenario particle is at distance 0.05 from the cursor whatever the
    radius and the strength are. *)
Lemma scenario_distance_any (rad str : R) :
  distance (scriptFrame 0 (RVec2 0.1 0.1) rad str (RVec3 1 0 0.5)
              (RVec3 0 1 1) 1 1 (-1) (-0.2) 0) scenarioParticle
  = fin 0.05.
Proof. exact scenario_distance. Qed.

Lemma repelled_of_repulsion (u : Uniforms) (a : Attributes) (x y : R) :
  repulsion u a = Vec2 (fin x) (fin y) ->
  finalPosition u a
  = Vec3 (fin (rx3 (restingPosition a) + x
               + sin (uTime u * 0.5 + aRandom a * 10) * 0.01))
         (fin (ry3 (restingPosition a) + y
               + cos (uTime u * 0.5 + aRandom a * 10) * 0.01))
         (fin (rz3 (restingPosition a)
               + sin (uTime u * 0.5 + aRandom a * 10) * 0.01)).
Proof.
  intros H. unfold finalPosition, repelledPosition. rewrite H. reflexivity.
Qed.

(** X3. A particle at or beyond the interaction radius, and not exactly on
    the cursor, is not moved by the cursor at all: its displaced position
    is its rest position plus the breathing motion. *)
Theorem outside_radius_only_breathes (u : Uniforms) (a : Attributes) (d : R) :
  distance u a = fin d -> 0 < d -> uInteractionRadius u <= d ->
  repulsion u a = Vec2 (fin 0) (fin 0)
  /\ repelledPosition u a = vec3_of (restingPosition a)
  /\ finalPosition u a
     = breathe (fin (uTime u)) (fin (aRandom a)) (vec3_of (restingPosition a)).
Proof.
  intros H Hd Hrad.
  destruct (repulsion_of_distance u a d H Hd)
    as (sx & sy & dx & dy & _ & _ & _ & _ & _ & _ & Hrep).
  destruct (Rlt_dec d (uInteractionRadius u)) as [Hlt | _]; [lra |].
  rewrite !Rmult_0_r in Hrep.
  assert (Hp : repelledPosition u a = vec3_of (restingPosition a)).
  { unfold repelledPosition. rewrite Hrep.
    unfold vec3_of, fadd, lift2, fin. cbn [x3 y3 z3 x2 y2].
    rewrite !Rplus_0_r. reflexivity. }
  split; [exact Hrep |]. split; [exact Hp |].
  unfold finalPosition. rewrite Hp. reflexivity.
Qed.

Lemma outside_radius_only_breathes_witness :
  let u := scriptFrame 0 (RVec2 0.1 0.1) 0.01 0.5 (RVec3 1 0 0.5)
             (RVec3 0 1 1) 1 1 (-1) (-0.2) 0 in
  (distance u scenarioParticle = fin 0.05 /\ 0 < 0.05
   /\ uInteractionRadius u <= 0.05)
  /\ repulsion u scenarioParticle = Vec2 (fin 0) (fin 0).
Proof.
  intros u.
  assert (H1 : distance u scenarioParticle = fin 0.05)
    by apply scenario_distance_any.
  assert (H2 : 0 < 0.05) by lra.
  assert (H3 : uInteractionRadius u <= 0.05) by (simpl; lra).
  split; [auto |].
  apply (outside_radius_only_breathes u scenarioParticle 0.05 H1 H2 H3).
Defined.

Lemma unit_component (dx dy : R) : dx * dx + dy * dy = 1 -> Rabs dx <= 1.
Proof.
  intros H. apply Rabs_le. split; nra.
Qed.

Lemma row_vec_fin (r : row4) (x y z w : R) :
  row_vec r (Vec4 (fin x) (fin y) (fin z) (fin w))
  = fin (c0 r * x + c1 r * y + c2 r * z + c3 r * w).
Proof. reflexivity. Qed.

Lemma mat_vec_fin (M : mat4) (x y z w : R) :
  mat_vec M (Vec4 (fin x) (fin y) (fin z) (fin w))
  = Vec4 (fin (c0 (r0 M) * x + c1 (r0 M) * y + c2 (r0 M) * z + c3 (r0 M) * w))
         (fin (c0 (r1 M) * x + c1 (r1 M) * y + c2 (r1 M) * z + c3 (r1 M) * w))
         (fin (c0 (r2 M) * x + c1 (r2 M) * y + c2 (r2 M) * z + c3 (r2 M) * w))
         (fin (c0 (r3 M) * x + c1 (r3 M) * y + c2 (r3 M) * z + c3 (r3 M) * w)).
Proof. reflexivity. Qed.

Lemma sin_scaled_bound (x : R) : Rabs (sin x * 0.01) <= 0.01.
Proof.
  rewrite Rabs_mult, (Rabs_pos_eq 0.01) by lra.
  pose proof (SIN_bound x) as [Hl Hu].
  assert (Rabs (sin x) <= 1) by (apply Rabs_le; lra). lra.
Qed.

Lemma cos_scaled_bound (x : R) : Rabs (cos x * 0.01) <= 0.01.
Proof.
  rewrite Rabs_mult, (Rabs_pos_eq 0.01) by lra.
  pose proof (COS_bound x) as [Hl Hu].
  assert (Rabs (cos x) <= 1) by (apply Rabs_le; lra). lra.
Qed.

(** X4. Away from the singularity, and with a strength that is not
    negative, the displaced position is finite and stays close to the rest
    position: within [repulsionStrength + 0.01] in x and in y and within
    [0.01] in z; and every component of [gl_Position] is finite. *)
Theorem displacement_bounded (u : Uniforms) (a : Attributes) (d : R) :
  distance u a = fin d -> 0 < d -> 0 <= uRepulsionStrength u ->
  exists fx fy fz,
    finalPosition u a = Vec3 (fin fx) (fin fy) (fin fz)
    /\ Rabs (fx - rx3 (restingPosition a)) <= uRepulsionStrength u + 0.01
    /\ Rabs (fy - ry3 (restingPosition a)) <= uRepulsionStrength u + 0.01
    /\ Rabs (fz - rz3 (restingPosition a)) <= 0.01
    /\ exists px py pz pw,
         gl_Position (vertexShader u a)
         = Vec4 (fin px) (fin py) (fin pz) (fin pw).
Proof.
  intros H Hd Hs.
  destruct (repulsion_of_distance u a d H Hd)
    as (sx & sy & dx & dy & _ & _ & _ & _ & Hunit & _ & Hrep).
  set (m := if Rlt_dec d (uInteractionRadius u)
            then (1 - d / uInteractionRadius u) * uRepulsionStrength u
            else 0) in *.
  assert (Hm : 0 <= m <= uRepulsionStrength u).
  { unfold m. destruct (Rlt_dec d (uInteractionRadius u)) as [Hlt | _]; [| lra].
    assert (Hq : 0 < d / uInteractionRadius u < 1).
    { split.
      - apply Rdiv_lt_0_compat; lra.
      - apply (Rmult_lt_reg_r (uInteractionRadius u)); [lra |].
        unfold Rdiv. rewrite Rmult_assoc, Rinv_l by lra. lra. }
    split; nra. }
  assert (Hx : Rabs (dx * m) <= uRepulsionStrength u).
  { rewrite Rabs_mult, (Rabs_pos_eq m) by lra.
    pose proof (unit_component dx dy Hunit) as Hdx.
    pose proof (Rabs_pos dx). nra. }
  assert (Hy : Rabs (dy * m) <= uRepulsionStrength u).
  { rewrite Rabs_mult, (Rabs_pos_eq m) by lra.
    assert (Hunit' : dy * dy + dx * dx = 1) by lra.
    pose proof (unit_component dy dx Hunit') as Hdy.
    pose proof (Rabs_pos dy). nra. }
  rewrite (repelled_of_repulsion u a _ _ Hrep).
  do 3 eexists. split; [reflexivity |].
  pose proof (sin_scaled_bound (uTime u * 0.5 + aRandom a * 10)) as Bs.
  pose proof (cos_scaled_bound (uTime u * 0.5 + aRandom a * 10)) as Bc.
  split; [| split; [| split]].
  - replace (rx3 (restingPosition a) + dx * m
             + sin (uTime u * 0.5 + aRandom a * 10) * 0.01
             - rx3 (restingPosition a))
      with (dx * m + sin (uTime u * 0.5 + aRandom a * 10) * 0.01) by ring.
    eapply Rle_trans; [apply Rabs_triang | lra].
  - replace (ry3 (restingPosition a) + dy * m
             + cos (uTime u * 0.5 + aRandom a * 10) * 0.01
             - ry3 (restingPosition a))
      with (dy * m + cos (uTime u * 0.5 + aRandom a * 10) * 0.01) by ring.
    eapply Rle_trans; [apply Rabs_triang | lra].
  - replace (rz3 (restingPosition a)
             + sin (uTime u * 0.5 + aRandom a * 10) * 0.01
             - rz3 (restingPosition a))
      with (sin (uTime u * 0.5 + aRandom a * 10) * 0.01) by ring.
    exact Bs.
  - unfold vertexShader, modelViewPosition. cbn [gl_Position].
    rewrite (repelled_of_repulsion u a _ _ Hrep).
    unfold vec4_of. cbn [x3 y3 z3].
    rewrite mat_vec_fin, mat_vec_fin. do 4 eexists. reflexivity.
Qed.

Lemma displacement_bounded_witness :
  (distance scenarioFrame scenarioParticle = fin 0.05 /\ 0 < 0.05
   /\ 0 <= uRepulsionStrength scenarioFrame)
  /\ exists px py pz pw,
       gl_Position (vertexShader scenarioFrame scenarioParticle)
       = Vec4 (fin px) (fin py) (fin pz) (fin pw).
Proof.
  assert (H2 : 0 < 0.05) by lra.
  assert (H3 : 0 <= uRepulsionStrength scenarioFrame) by (simpl; lra).
  split; [split; [exact scenario_distance | split; assumption] |].
  destruct (displacement_bounded scenarioFrame scenarioParticle 0.05
              scenario_distance H2 H3)
    as (fx & fy & fz & _ & _ & _ & _ & Hp).
  exact Hp.
Defined.

(** ** Breathing *)

(** X5. The breathing offsets in x and y lie on a circle of radius 0.01 (the
    z offset repeats the x offset), and the motion has period [4 * PI] in
    time, on any position. *)
Theorem breathing_circle_period (t r : R) :
  (forall x y z, exists ox oy,
      breathe (fin t) (fin r) (Vec3 (fin x) (fin y) (fin z))
      = Vec3 (fin (x + ox)) (fin (y + oy)) (fin (z + ox))
      /\ ox * ox + oy * oy = 0.01 * 0.01)
  /\ (forall p, breathe (fin (t + 4 * PI)) (fin r) p = breathe (fin t) (fin r) p).
Proof.
  split.
  - intros x y z. do 2 eexists. split; [apply breathe_fin |].
    pose proof (sin2_cos2 (t * 0.5 + r * 10)) as H. unfold Rsqr in H. nra.
  - intros p. unfold breathe, fsin, fcos, fmul, fadd, lift1, lift2, fin.
    replace ((t + 4 * PI) * 0.5 + r * 10)
      with (t * 0.5 + r * 10 + 2 * INR 1 * PI) by (simpl; lra).
    rewrite sin_period, cos_period. reflexivity.
Qed.

(** ** The two revisions of the vertex stage *)

(** X6. With the default radius 0.8 and strength 0.5 the revised vertex
    stage displaces and projects every particle exactly as the earlier
    revision, which has the two values built in. *)
Theorem revisions_agree (u : Uniforms) (a : Attributes) :
  uInteractionRadius u = 0.8 -> uRepulsionStrength u = 0.5 ->
  finalPosition u a = Part000.finalPosition u a
  /\ gl_Position (vertexShader u a) = gl_Position (Part000.vertexShader u a)
  /\ gl_PointSize (vertexShader u a) = gl_PointSize (Part000.vertexShader u a).
Proof.
  intros Hr Hs.
  assert (E : finalPosition u a = Part000.finalPosition u a).
  { unfold finalPosition, Part000.finalPosition, repelledPosition,
      Part000.repelledPosition, repulsion, Part000.repulsion,
      repulsionStrength, Part000.repulsionStrength.
    rewrite Hr, Hs. reflexivity. }
  split; [exact E |].
  unfold vertexShader, Part000.vertexShader, modelViewPosition,
    Part000.modelViewPosition. cbn [gl_Position gl_PointSize].
  rewrite E. split; reflexivity.
Qed.

Lemma revisions_agree_witness :
  (uInteractionRadius scenarioFrame = 0.8
   /\ uRepulsionStrength scenarioFrame = 0.5)
  /\ gl_Position (vertexShader scenarioFrame scenarioParticle)
     = gl_Position (Part000.vertexShader scenarioFrame scenarioParticle).
Proof.
  split; [split; reflexivity |].
  apply (revisions_agree scenarioFrame scenarioParticle); reflexivity.
Defined.

(** ** The range of the colour *)

Lemma between_mix (x y t : R) :
  0 <= t <= 1 -> Rmin x y <= x * (1 - t) + y * t <= Rmax x y.
Proof.
  intros Ht. unfold Rmin, Rmax. destruct (Rle_dec x y); split; nra.
Qed.

Lemma restColor_between (c1 c2 : rvec3) (y : R) :
  -1.5 <= y <= 1.5 ->
  Rmin (rx3 c1) (rx3 c2) <= rx3 (restColor c1 c2 y) <= Rmax (rx3 c1) (rx3 c2)
  /\ Rmin (ry3 c1) (ry3 c2) <= ry3 (restColor c1 c2 y) <= Rmax (ry3 c1) (ry3 c2)
  /\ Rmin (rz3 c1) (rz3 c2) <= rz3 (restColor c1 c2 y) <= Rmax (rz3 c1) (rz3 c2).
Proof.
  intros Hy. unfold restColor. cbn [rx3 ry3 rz3].
  assert (Ht : 0 <= (y + 1.5) / 3 <= 1) by lra.
  repeat split; apply between_mix; exact Ht.
Qed.

(** X7. At rest height -1.5 the colour is [color1], at 1.5 it is [color2],
    and for a rest height in between every channel lies between the
    channels of the two colours. *)
Theorem color_endpoints_and_range (u : Uniforms) (a : Attributes) :
  -1.5 <= ry3 (restingPosition a) <= 1.5 ->
  (ry3 (restingPosition a) = -1.5 ->
   vColor (vertexShader u a) = vec3_of (uColor1 u))
  /\ (ry3 (restingPosition a) = 1.5 ->
      vColor (vertexShader u a) = vec3_of (uColor2 u))
  /\ exists c,
      vColor (vertexShader u a) = vec3_of c
      /\ Rmin (rx3 (uColor1 u)) (rx3 (uColor2 u)) <= rx3 c
         <= Rmax (rx3 (uColor1 u)) (rx3 (uColor2 u))
      /\ Rmin (ry3 (uColor1 u)) (ry3 (uColor2 u)) <= ry3 c
         <= Rmax (ry3 (uColor1 u)) (ry3 (uColor2 u))
      /\ Rmin (rz3 (uColor1 u)) (rz3 (uColor2 u)) <= rz3 c
         <= Rmax (rz3 (uColor1 u)) (rz3 (uColor2 u)).
Proof.
  intros Hy. rewrite vColor_restColor. split; [| split].
  - intros ->. destruct (uColor1 u) as [r1 g1 b1].
    unfold restColor, vec3_of, fin. cbn [rx3 ry3 rz3].
    f_equal; f_equal; lra.
  - intros ->. destruct (uColor2 u) as [r2 g2 b2].
    unfold restColor, vec3_of, fin. cbn [rx3 ry3 rz3].
    f_equal; f_equal; lra.
  - eexists. split; [reflexivity |]. apply restColor_between. exact Hy.
Qed.

Lemma color_endpoints_and_range_witness :
  (-1.5 <= ry3 (restingPosition scenarioParticle) <= 1.5)
  /\ exists c, vColor (vertexShader scenarioFrame scenarioParticle) = vec3_of c.
Proof.
  assert (H : -1.5 <= ry3 (restingPosition scenarioParticle) <= 1.5)
    by (simpl; lra).
  split; [exact H |].
  destruct (color_endpoints_and_range scenarioFrame scenarioParticle H)
    as (_ & _ & c & Hc & _).
  exists c. exact Hc.
Defined.

Lemma norm_sqr (p : rvec3) :
  norm p * norm p = rx3 p * rx3 p + ry3 p * ry3 p + rz3 p * rz3 p.
Proof.
  unfold norm. apply sqrt_sqrt.
  pose proof (Rle_0_sqr (rx3 p)). pose proof (Rle_0_sqr (ry3 p)).
  pose proof (Rle_0_sqr (rz3 p)). unfold Rsqr in *. lra.
Qed.

Lemma norm_nonneg (p : rvec3) : 0 <= norm p.
Proof. apply sqrt_pos. Qed.

Lemma coords_within_norm (p : rvec3) (b : R) :
  norm p <= b ->
  - b <= rx3 p <= b /\ - b <= ry3 p <= b /\ - b <= rz3 p <= b.
Proof.
  intros Hb. pose proof (norm_sqr p) as Hs. pose proof (norm_nonneg p) as Hn.
  repeat split; nra.
Qed.

(** X8. Whatever the draws in [0, 1) are, every sampled rest height lies in
    [-1.5, 1.5], so that the colour of every generated particle lies
    between [color1] and [color2], channel by channel. *)
Theorem generated_colors_in_range
  (random : nat -> R) (k : nat) (u : Uniforms) (pos : rvec3) (seed : R) :
  0 <= random (k + 2)%nat < 1 ->
  -1.5 <= ry3 (samplePosition random k) <= 1.5
  /\ exists c,
      vColor (vertexShader u {| position := pos;
                                restingPosition := samplePosition random k;
                                aRandom := seed |})
      = vec3_of c
      /\ Rmin (rx3 (uColor1 u)) (rx3 (uColor2 u)) <= rx3 c
         <= Rmax (rx3 (uColor1 u)) (rx3 (uColor2 u))
      /\ Rmin (ry3 (uColor1 u)) (ry3 (uColor2 u)) <= ry3 c
         <= Rmax (ry3 (uColor1 u)) (ry3 (uColor2 u))
      /\ Rmin (rz3 (uColor1 u)) (rz3 (uColor2 u)) <= rz3 c
         <= Rmax (rz3 (uColor1 u)) (rz3 (uColor2 u)).
Proof.
  intros Hr.
  pose proof (samplePosition_in_ball random k Hr) as Hb.
  unfold arrangementRadius in Hb.
  destruct (coords_within_norm _ _ Hb) as (_ & Hy0 & _).
  assert (Hy : -1.5 <= ry3 (samplePosition random k) <= 1.5) by lra.
  split; [exact Hy |].
  rewrite vColor_restColor. cbn [restingPosition].
  eexists. split; [reflexivity |]. apply restColor_between. exact Hy.
Qed.

Lemma generated_colors_in_range_witness :
  (0 <= (fun _ : nat => / 2) (0 + 2)%nat < 1)
  /\ -1.5 <= ry3 (samplePosition (fun _ => / 2) 0) <= 1.5.
Proof.
  assert (H : 0 <= (fun _ : nat => / 2) (0 + 2)%nat < 1) by lra.
  split; [exact H |].
  apply (generated_colors_in_range (fun _ => / 2) 0 scenarioFrame
           (RVec3 0 0 0) 0 H).
Defined.

(** ** The shape of the alpha mask *)

Lemma ramp_range (d : R) : 0 <= ramp d <= 1.
Proof.
  unfold ramp. split.
  - apply Rmin_glb; [apply Rmax_r | lra].
  - apply Rmin_r.
Qed.

Lemma ramp_inner (d : R) : d <= 0.45 -> ramp d = 0.
Proof.
  intros H. unfold ramp. rewrite Rmax_right by lra. apply Rmin_left. lra.
Qed.

Lemma ramp_outer (d : R) : 0.5 <= d -> ramp d = 1.
Proof.
  intros H. unfold ramp. rewrite Rmax_left by lra. apply Rmin_right. lra.
Qed.

Lemma ramp_between (d : R) : 0.45 < d < 0.5 -> 0 < ramp d < 1.
Proof.
  intros H. unfold ramp. rewrite Rmax_left by lra. rewrite Rmin_left by lra.
  lra.
Qed.

Lemma ramp_monotone (d1 d2 : R) : d1 <= d2 -> ramp d1 <= ramp d2.
Proof.
  intros H. unfold ramp.
  apply Rle_min_compat_r. apply Rle_max_compat_r. lra.
Qed.

Lemma smooth_range (t : R) : 0 <= t <= 1 -> 0 <= t * t * (3 - 2 * t) <= 1.
Proof.
  intros [H0 H1]. split.
  - apply Rmult_le_pos; [apply Rmult_le_pos; lra | lra].
  - assert (0 <= (1 - t) * (1 - t) * (1 + 2 * t))
      by (apply Rmult_le_pos; [apply Rmult_le_pos; lra | lra]).
    lra.
Qed.

Lemma smooth_strict (t : R) : 0 < t < 1 -> 0 < t * t * (3 - 2 * t) < 1.
Proof.
  intros [H0 H1]. split.
  - apply Rmult_lt_0_compat; [apply Rmult_lt_0_compat; lra | lra].
  - assert (0 < (1 - t) * (1 - t) * (1 + 2 * t))
      by (apply Rmult_lt_0_compat; [apply Rmult_lt_0_compat; lra | lra]).
    lra.
Qed.

Lemma smooth_monotone (t1 t2 : R) :
  0 <= t1 -> t1 <= t2 -> t2 <= 1 ->
  t1 * t1 * (3 - 2 * t1) <= t2 * t2 * (3 - 2 * t2).
Proof.
  intros H0 H12 H1.
  assert (A : 0 <= t1 * (3 - 2 * t1 - t2)) by (apply Rmult_le_pos; lra).
  assert (B : 0 <= t2 * (3 - 2 * t2 - t1)) by (apply Rmult_le_pos; lra).
  assert (C : 0 <= (t2 - t1) * (t1 * (3 - 2 * t1 - t2) + t2 * (3 - 2 * t2 - t1)))
    by (apply Rmult_le_pos; lra).
  lra.
Qed.

Lemma alpha_ramp (p : rvec2) (d : R) :
  dist p = fin d ->
  alpha p = fin (1 - ramp d * ramp d * (3 - 2 * ramp d)).
Proof. intros H. rewrite (alpha_of_dist p d H). reflexivity. Qed.

Lemma dist_finite (p : rvec2) : exists d, dist p = fin d /\ 0 <= d.
Proof.
  destruct p as [x y]. eexists. split; [apply dist_fin | apply sqrt_pos].
Qed.

Lemma fragment_kept (vColor : vec3) (p : rvec2) (al : R) :
  alpha p = fin al -> 0.01 <= al ->
  fragmentShader vColor p = Some (vec4_of vColor (fin al)).
Proof.
  intros H Hal. unfold fragmentShader. rewrite H, flt_fin.
  destruct (Rlt_dec al 0.01); [lra | reflexivity].
Qed.

Lemma fragment_discarded (vColor : vec3) (p : rvec2) (al : R) :
  alpha p = fin al -> al < 0.01 -> fragmentShader vColor p = None.
Proof.
  intros H Hal. unfold fragmentShader. rewrite H, flt_fin.
  destruct (Rlt_dec al 0.01); [reflexivity | lra].
Qed.

(** X9. At every sprite coordinate the alpha is a number in [0, 1]: it is 1
    up to distance 0.45 from the centre, where the fragment is kept with
    the colour unchanged, strictly between 0 and 1 between 0.45 and 0.5,
    and 0 from 0.5 on, where the fragment is discarded; a fragment is
    discarded exactly when its alpha is below 0.01. *)
Theorem alpha_mask_shape (vColor : vec3) (p : rvec2) :
  exists d al,
    dist p = fin d /\ 0 <= d /\ alpha p = fin al /\ 0 <= al <= 1
    /\ (d <= 0.45 ->
        al = 1 /\ fragmentShader vColor p = Some (vec4_of vColor (fin 1)))
    /\ (0.45 < d < 0.5 -> 0 < al < 1)
    /\ (0.5 <= d -> al = 0 /\ fragmentShader vColor p = None)
    /\ (fragmentShader vColor p = None <-> al < 0.01)
    /\ (0.01 <= al ->
        fragmentShader vColor p = Some (vec4_of vColor (fin al))).
Proof.
  destruct (dist_finite p) as (d & Hd & Hpos).
  pose proof (alpha_ramp p d Hd) as Ha.
  pose proof (ramp_range d) as Ht.
  exists d, (1 - ramp d * ramp d * (3 - 2 * ramp d)).
  pose proof (smooth_range (ramp d) Ht) as Hs.
  split; [exact Hd |]. split; [exact Hpos |]. split; [exact Ha |].
  split; [lra |].
  split.
  { intros Hin. rewrite ramp_inner in * by exact Hin.
    split; [lra |].
    replace (fin 1) with (fin (1 - 0 * 0 * (3 - 2 * 0))) by (f_equal; lra).
    apply fragment_kept; [exact Ha | lra]. }
  split.
  { intros Hmid. pose proof (smooth_strict _ (ramp_between d Hmid)). lra. }
  split.
  { intros Hout. rewrite ramp_outer in * by exact Hout.
    split; [lra |]. eapply fragment_discarded; [exact Ha | lra]. }
  split.
  - split.
    + intros Hnone.
      destruct (Rlt_dec (1 - ramp d * ramp d * (3 - 2 * ramp d)) 0.01)
        as [Hlt | Hge]; [exact Hlt |].
      rewrite (fragment_kept vColor p _ Ha) in Hnone by lra. discriminate.
    + intros Hlt. eapply fragment_discarded; [exact Ha | exact Hlt].
  - intros Hge. apply fragment_kept; assumption.
Qed.

(** X10. The alpha never increases with the distance from the centre of
    the sprite. *)
Theorem alpha_monotone (p q : rvec2) (dp dq : R) :
  dist p = fin dp -> dist q = fin dq -> dp <= dq ->
  exists ap aq, alpha p = fin ap /\ alpha q = fin aq /\ aq <= ap.
Proof.
  intros Hp Hq Hle.
  do 2 eexists. split; [apply (alpha_ramp p dp Hp) |].
  split; [apply (alpha_ramp q dq Hq) |].
  pose proof (ramp_range dp) as [Hp0 Hp1].
  pose proof (ramp_range dq) as [Hq0 Hq1].
  pose proof (ramp_monotone dp dq Hle) as Hm.
  pose proof (smooth_monotone (ramp dp) (ramp dq) Hp0 Hm Hq1). lra.
Qed.

Lemma alpha_monotone_witness :
  (dist (RVec2 0.9 0.5) = fin 0.4 /\ dist (RVec2 0.86 0.98) = fin 0.6
   /\ 0.4 <= 0.6)
  /\ exists ap aq, alpha (RVec2 0.9 0.5) = fin ap
                   /\ alpha (RVec2 0.86 0.98) = fin aq /\ aq <= ap.
Proof.
  assert (D1 : dist (RVec2 0.9 0.5) = fin 0.4).
  { rewrite dist_fin. f_equal.
    replace ((0.9 - 0.5) * (0.9 - 0.5) + (0.5 - 0.5) * (0.5 - 0.5))
      with (0.4 * 0.4) by lra.
    apply sqrt_square. lra. }
  assert (D3 : dist (RVec2 0.86 0.98) = fin 0.6).
  { rewrite dist_fin. f_equal.
    replace ((0.86 - 0.5) * (0.86 - 0.5) + (0.98 - 0.5) * (0.98 - 0.5))
      with (0.6 * 0.6) by lra.
    apply sqrt_square. lra. }
  assert (L : 0.4 <= 0.6) by lra.
  split; [auto |].
  exact (alpha_monotone (RVec2 0.9 0.5) (RVec2 0.86 0.98) 0.4 0.6 D1 D3 L).
Defined.


Lemma alpha_mask_shape_witness :
  exists d al,
    dist (RVec2 0.9 0.5) = fin d /\ d <= 0.45
    /\ alpha (RVec2 0.9 0.5) = fin al /\ al = 1.
Proof.
  destruct (alpha_mask_shape (Vec3 (fin 1) (fin 0) (fin 0.5)) (RVec2 0.9 0.5))
    as (d & al & Hd & _ & Ha & _ & Hin & _).
  assert (E : d = 0.4).
  { rewrite dist_fin in Hd. injection Hd as <-.
    replace ((0.9 - 0.5) * (0.9 - 0.5) + (0.5 - 0.5) * (0.5 - 0.5))
      with (0.4 * 0.4) by lra.
    apply sqrt_square. lra. }
  assert (L : d <= 0.45) by lra.
  exists d, al. split; [exact Hd |]. split; [exact L |].
  split; [exact Ha |]. apply (Hin L).
Defined.

(** ** The point size *)

Lemma pointSize_fin (z : R) : z <> 0 -> pointSize (fin z) = fin (4 * (1 / - z)).
Proof.
  intros Hz. unfold pointSize.
  change (- fin z)%fl with (fin (- z)).
  rewrite (fdiv_fin 1 (- z)) by lra. reflexivity.
Qed.

(** X11. The point size is [4 / depth] for a particle at view-space depth
    [depth = - z > 0] in front of the camera, so positive and smaller the
    farther the particle is; at depth 0 there is no finite point size, and
    behind the camera the size is negative. *)
Theorem point_size_by_depth :
  (forall u a,
      gl_PointSize (vertexShader u a) = pointSize (z4 (modelViewPosition u a)))
  /\ (forall z, z < 0 ->
      pointSize (fin z) = fin (4 / - z) /\ 0 < 4 / - z)
  /\ (forall z1 z2, z1 < z2 -> z2 < 0 -> 4 / - z1 < 4 / - z2)
  /\ pointSize (fin 0) = None
  /\ (forall z, 0 < z -> pointSize (fin z) = fin (4 / - z) /\ 4 / - z < 0).
Proof.
  split; [reflexivity |].
  split.
  { intros z Hz. rewrite pointSize_fin by lra. split.
    - f_equal. field. lra.
    - apply Rdiv_lt_0_compat; lra. }
  split.
  { intros z1 z2 H12 H2. unfold Rdiv.
    apply Rmult_lt_compat_l; [lra |].
    apply Rinv_lt_contravar; [| lra].
    replace (- z2 * - z1) with (z1 * z2) by ring. nra. }
  split.
  { unfold pointSize. change (- fin 0)%fl with (fin (- 0)).
    rewrite Ropp_0, fdiv_zero. reflexivity. }
  intros z Hz. rewrite pointSize_fin by lra. split.
  - f_equal. field. lra.
  - assert (0 < 4 / z) by (apply Rdiv_lt_0_compat; lra).
    replace (4 / - z) with (- (4 / z)) by (field; lra). lra.
Qed.

Lemma point_size_by_depth_witness :
  (-3.5 < 0) /\ pointSize (fin (-3.5)) = fin (4 / - -3.5).
Proof.
  assert (H : -3.5 < 0) by lra.
  split; [exact H |].
  destruct point_size_by_depth as (_ & P & _).
  apply (P (-3.5) H).
Defined.

(** ** One projection for measuring and for drawing *)

Lemma mat_vec_mul (P MV : mat4) (x y z w : R) :
  mat_vec P (mat_vec MV (Vec4 (fin x) (fin y) (fin z) (fin w)))
  = mat_vec (mat_mul P MV) (Vec4 (fin x) (fin y) (fin z) (fin w)).
Proof.
  rewrite !mat_vec_fin.
  unfold mat_mul, row_mat, row_add, row_scale. cbn [r0 r1 r2 r3 c0 c1 c2 c3].
  unfold fin. f_equal; f_equal; ring.
Qed.

(** X12. The clip-space position of a particle is the projection of its
    displaced position by the very transform that line 43 applies to the
    rest position: where the displaced position is the finite point [p],
    [gl_Position] is what [screenPos] is for a particle resting at [p]. *)
Theorem drawn_where_projected (u : Uniforms) (a : Attributes) (p : rvec3) :
  finalPosition u a = vec3_of p ->
  gl_Position (vertexShader u a)
  = screenPos u {| position := position a; restingPosition := p;
                   aRandom := aRandom a |}.
Proof.
  intros H. unfold vertexShader, modelViewPosition, screenPos.
  cbn [gl_Position restingPosition]. rewrite H.
  unfold vec4_of, vec3_of. cbn [x3 y3 z3]. apply mat_vec_mul.
Qed.

Lemma drawn_where_projected_witness :
  exists p,
    finalPosition scenarioFrame scenarioParticle = vec3_of p
    /\ gl_Position (vertexShader scenarioFrame scenarioParticle)
       = screenPos scenarioFrame
           {| position := position scenarioParticle; restingPosition := p;
              aRandom := aRandom scenarioParticle |}.
Proof.
  assert (Hd : 0 < 0.05) by lra.
  destruct (repulsion_of_distance scenarioFrame scenarioParticle 0.05
              scenario_distance Hd)
    as (sx & sy & dx & dy & _ & _ & _ & _ & _ & _ & Hrep).
  pose proof (repelled_of_repulsion scenarioFrame scenarioParticle _ _ Hrep)
    as Hfin.
  eexists (RVec3 _ _ _).
  split; [exact Hfin |].
  apply drawn_where_projected. exact Hfin.
Defined.

(** ** The perspective divide *)

Lemma script_screenPos time cursor rad s col1 col2 f aspect zz zw angle a :
  screenPos (scriptFrame time cursor rad s col1 col2 f aspect zz zw angle) a
  = let x := rx3 (restingPosition a) in
    let y := ry3 (restingPosition a) in
    let z := rz3 (restingPosition a) in
    Vec4 (fin (f / aspect * (cos angle * x + sin angle * z)))
         (fin (f * y))
         (fin (zz * (- sin angle * x + cos angle * z - 3.5) + zw))
         (fin (sin angle * x - cos angle * z + 3.5)).
Proof.
  unfold screenPos, scriptFrame. cbn [projectionMatrix modelViewMatrix].
  unfold vec4_of, vec3_of. cbn [x3 y3 z3]. rewrite mat_vec_fin.
  unfold mat_mul, row_mat, row_add, row_scale, perspective, orbModelView.
  cbn [r0 r1 r2 r3 c0 c1 c2 c3]. cbv zeta. unfold fin.
  f_equal; f_equal; unfold Rdiv; lra.
Qed.

(** X13. Under the camera of the script, at any rotation of the orb and for
    any cursor, a particle whose rest position lies in the ball of radius
    [arrangementRadius] projects with a [w] between 2 and 5: the
    perspective divide never divides by zero, and the projected position
    and the distance to the cursor are finite. *)
Theorem rest_positions_project
  time cursor rad s col1 col2 f aspect zz zw angle (a : Attributes) :
  norm (restingPosition a) <= arrangementRadius ->
  let u := scriptFrame time cursor rad s col1 col2 f aspect zz zw angle in
  exists x y z w d,
    screenPos u a = Vec4 (fin x) (fin y) (fin z) (fin w)
    /\ 2 <= w <= 5
    /\ screenXY u a = Vec2 (fin (x / w)) (fin (y / w))
    /\ distance u a = fin d /\ 0 <= d.
Proof.
  intros Hn u. unfold u. unfold arrangementRadius in Hn.
  pose proof (script_screenPos time cursor rad s col1 col2 f aspect zz zw angle a)
    as Hs. cbv zeta in Hs.
  set (x := rx3 (restingPosition a)) in *.
  set (y := ry3 (restingPosition a)) in *.
  set (z := rz3 (restingPosition a)) in *.
  assert (Hw : 2 <= sin angle * x - cos angle * z + 3.5 <= 5).
  { pose proof (norm_sqr (restingPosition a)) as Hq. fold x y z in Hq.
    pose proof (norm_nonneg (restingPosition a)) as H0.
    pose proof (sin2_cos2 angle) as Hsc. unfold Rsqr in Hsc.
    assert (Hb : (sin angle * x - cos angle * z)
                 * (sin angle * x - cos angle * z) <= 1.5 * 1.5).
    { assert (Hcs : (sin angle * x - cos angle * z)
                    * (sin angle * x - cos angle * z)
                    + (cos angle * x + sin angle * z)
                      * (cos angle * x + sin angle * z)
                    = x * x + z * z).
      { replace ((sin angle * x - cos angle * z)
                 * (sin angle * x - cos angle * z)
                 + (cos angle * x + sin angle * z)
                   * (cos angle * x + sin angle * z))
          with ((sin angle * sin angle + cos angle * cos angle)
                * (x * x + z * z)) by ring.
        rewrite Hsc. ring. }
      pose proof (Rle_0_sqr (cos angle * x + sin angle * z)) as H1.
      pose proof (Rle_0_sqr y) as H2. unfold Rsqr in H1, H2. nra. }
    split; nra. }
  do 5 eexists.
  split; [exact Hs |]. split; [exact Hw |].
  assert (Hxy : screenXY (scriptFrame time cursor rad s col1 col2 f aspect zz zw angle) a
                = Vec2 (fin (f / aspect * (cos angle * x + sin angle * z)
                             / (sin angle * x - cos angle * z + 3.5)))
                       (fin (f * y / (sin angle * x - cos angle * z + 3.5))))
    by (apply (screenXY_fin _ _ _ _ _ _ Hs); lra).
  split; [exact Hxy |].
  unfold distance. rewrite Hxy.
  unfold vsub2, vec2_of, fsub, lift2, fin. cbn [x2 y2 uMouse scriptFrame].
  split; [apply length_fin | apply sqrt_pos].
Qed.

Lemma rest_positions_project_witness :
  norm (restingPosition (centreParticle 0)) <= arrangementRadius
  /\ exists d,
      distance (scriptFrame 0 (RVec2 0.1 0.1) 0.8 0.5 (RVec3 1 0 0.5)
                  (RVec3 0 1 1) 1 1 (-1) (-0.2) 0) (centreParticle 0)
      = fin d /\ 0 <= d.
Proof.
  assert (H : norm (restingPosition (centreParticle 0)) <= arrangementRadius).
  { unfold norm, centreParticle, arrangementRadius. cbn [restingPosition rx3 ry3 rz3].
    replace (0 * 0 + 0 * 0 + 0 * 0) with 0 by ring. rewrite sqrt_0. lra. }
  split; [exact H |].
  destruct (rest_positions_project 0 (RVec2 0.1 0.1) 0.8 0.5 (RVec3 1 0 0.5)
              (RVec3 0 1 1) 1 1 (-1) (-0.2) 0 (centreParticle 0) H)
    as (x & y & z & w & d & _ & _ & _ & Hd).
  exists d. exact Hd.
Defined.

(** ** The sampling of the ball *)

(** X14. For a radius draw [v] in [0, 1) the norm of the sampled position
    is [arrangementRadius * cbrt(v)], so that its cube is
    [arrangementRadius ^ 3 * v]: the cube of the distance from the centre
    is a fixed multiple of the uniform draw. *)
Theorem sample_norm_cubed (random : nat -> R) (k : nat) :
  0 <= random (k + 2)%nat < 1 ->
  norm (samplePosition random k) = arrangementRadius * cbrt (random (k + 2)%nat)
  /\ norm (samplePosition random k) * norm (samplePosition random k)
     * norm (samplePosition random k)
     = arrangementRadius * arrangementRadius * arrangementRadius
       * random (k + 2)%nat.
Proof.
  intros Hr.
  pose proof (cbrt_unit_interval _ Hr) as [Hc0 Hc1].
  assert (E : norm (samplePosition random k)
              = arrangementRadius * cbrt (random (k + 2)%nat)).
  { unfold samplePosition. cbv zeta. rewrite norm_spherical.
    apply Rabs_pos_eq. unfold arrangementRadius. nra. }
  split; [exact E |].
  rewrite E. pose proof (cbrt_cube (random (k + 2)%nat)) as Hcube.
  replace (arrangementRadius * cbrt (random (k + 2)%nat)
           * (arrangementRadius * cbrt (random (k + 2)%nat))
           * (arrangementRadius * cbrt (random (k + 2)%nat)))
    with (arrangementRadius * arrangementRadius * arrangementRadius
          * (cbrt (random (k + 2)%nat) * cbrt (random (k + 2)%nat)
             * cbrt (random (k + 2)%nat))) by ring.
  rewrite Hcube. reflexivity.
Qed.

Lemma sample_norm_cubed_witness :
  (0 <= (fun _ : nat => / 2) (0 + 2)%nat < 1)
  /\ norm (samplePosition (fun _ => / 2) 0) = arrangementRadius * cbrt (/ 2).
Proof.
  assert (H : 0 <= (fun _ : nat => / 2) (0 + 2)%nat < 1) by lra.
  split; [exact H |].
  apply (sample_norm_cubed (fun _ => / 2) 0 H).
Defined.

(** X15. For a polar draw [u] in [0, 1) the height of the sampled position
    is [r * (2 * u - 1)], with [r] the sampled radius, and the squared
    distance from the z axis is [r * r * (1 - (2 * u - 1) ^ 2)]: the height
    relative to the radius is an affine image of the uniform draw. *)
Theorem sample_height (random : nat -> R) (k : nat) :
  0 <= random (k + 1)%nat < 1 ->
  let p := samplePosition random k in
  let r := arrangementRadius * cbrt (random (k + 2)%nat) in
  let h := random (k + 1)%nat * 2 - 1 in
  rz3 p = r * h
  /\ rx3 p * rx3 p + ry3 p * ry3 p = r * r * (1 - h * h).
Proof.
  intros Hu p r h. unfold p, samplePosition. cbv zeta. cbn [rx3 ry3 rz3].
  fold r. fold h.
  assert (Hh : -1 <= h <= 1) by (unfold h; lra).
  pose proof (cos_acos h Hh) as Hc.
  pose proof (sin2_cos2 (acos h)) as Hp. unfold Rsqr in Hp.
  pose proof (sin2_cos2 (random k * 2 * PI)) as Ht. unfold Rsqr in Ht.
  rewrite Hc in *. split; [reflexivity |].
  replace (r * sin (acos h) * cos (random k * 2 * PI)
           * (r * sin (acos h) * cos (random k * 2 * PI))
           + r * sin (acos h) * sin (random k * 2 * PI)
             * (r * sin (acos h) * sin (random k * 2 * PI)))
    with (r * r * (sin (acos h) * sin (acos h))
          * (sin (random k * 2 * PI) * sin (random k * 2 * PI)
             + cos (random k * 2 * PI) * cos (random k * 2 * PI))) by ring.
  rewrite Ht. replace (sin (acos h) * sin (acos h)) with (1 - h * h) by lra.
  ring.
Qed.

Lemma sample_height_witness :
  (0 <= (fun _ : nat => / 2) (0 + 1)%nat < 1)
  /\ rz3 (samplePosition (fun _ => / 2) 0)
     = arrangementRadius * cbrt (/ 2) * (/ 2 * 2 - 1).
Proof.
  assert (H : 0 <= (fun _ : nat => / 2) (0 + 1)%nat < 1) by lra.
  split; [exact H |].
  apply (sample_height (fun _ => / 2) 0 H).
Defined.

(** ** The cursor *)

(** X1. A pointer position inside a window of positive size becomes a
    cursor in [-1, 1] x [-1, 1]: the left edge maps to x = -1, the right
    edge to x = 1, the top edge to y = 1 and the bottom edge to y = -1 (the
    y axis is flipped), the centre to (0, 0); the handler logs no event and
    changes nothing but the cursor. *)
Theorem mousemove_ndc (random : nat -> R) (w : World)
  (clientX clientY innerWidth innerHeight : R) :
  0 < innerWidth -> 0 < innerHeight ->
  0 <= clientX <= innerWidth -> 0 <= clientY <= innerHeight ->
  exists w',
    handle random (MouseMove clientX clientY innerWidth innerHeight) w
    = Ok tt w' []
    /\ -1 <= rx2 (mouse w') <= 1 /\ -1 <= ry2 (mouse w') <= 1
    /\ (clientX = 0 -> rx2 (mouse w') = -1)
    /\ (clientX = innerWidth -> rx2 (mouse w') = 1)
    /\ (clientY = 0 -> ry2 (mouse w') = 1)
    /\ (clientY = innerHeight -> ry2 (mouse w') = -1)
    /\ (clientX = innerWidth / 2 -> clientY = innerHeight / 2 ->
        mouse w' = RVec2 0 0)
    /\ clientX = (rx2 (mouse w') + 1) / 2 * innerWidth
    /\ clientY = (1 - ry2 (mouse w')) / 2 * innerHeight
    /\ w' = set_mouse (mouse w') w.
Proof.
  intros Hw Hh Hx Hy. eexists. split; [reflexivity |].
  cbn [mouse set_mouse rx2 ry2].
  assert (Qx : 0 <= clientX / innerWidth <= 1).
  { split.
    - apply Rmult_le_pos; [lra | left; apply Rinv_0_lt_compat; lra].
    - apply (Rmult_le_reg_r innerWidth); [lra |].
      unfold Rdiv. rewrite Rmult_assoc, Rinv_l by lra. lra. }
  assert (Qy : 0 <= clientY / innerHeight <= 1).
  { split.
    - apply Rmult_le_pos; [lra | left; apply Rinv_0_lt_compat; lra].
    - apply (Rmult_le_reg_r innerHeight); [lra |].
      unfold Rdiv. rewrite Rmult_assoc, Rinv_l by lra. lra. }
  split; [lra |]. split; [lra |].
  split; [intros ->; unfold Rdiv; lra |].
  split; [intros ->; unfold Rdiv; rewrite Rinv_r by lra; lra |].
  split; [intros ->; unfold Rdiv; lra |].
  split; [intros ->; unfold Rdiv; rewrite Rinv_r by lra; lra |].
  split.
  { intros -> ->. f_equal; field; lra. }
  split; [field; lra |]. split; [field; lra |]. reflexivity.
Qed.

Lemma mousemove_ndc_witness :
  (0 < 800 /\ 0 < 600 /\ 0 <= 400 <= 800 /\ 0 <= 0 <= 600)
  /\ exists w',
      handle (fun _ => 0) (MouseMove 400 0 800 600) initial = Ok tt w' []
      /\ ry2 (mouse w') = 1.
Proof.
  assert (H1 : 0 < 800) by lra. assert (H2 : 0 < 600) by lra.
  assert (H3 : 0 <= 400 <= 800) by lra. assert (H4 : 0 <= 0 <= 600) by lra.
  split; [auto |].
  destruct (mousemove_ndc (fun _ => 0) initial 400 0 800 600 H1 H2 H3 H4)
    as (w' & E & _ & _ & _ & _ & Hy & _).
  exists w'. split; [exact E | apply Hy; reflexivity].
Defined.

(** ** What a run leaves behind *)

Lemma ensures_pre {A : Type} (P P' Q : World -> Prop) (m : Prog A) :
  (forall w, P w -> P' w) -> ensures P' m Q -> ensures P m Q.
Proof. intros HP H w a w' l Hw E. eapply H; [apply HP, Hw | exact E]. Qed.

Lemma ensures_bind {A B : Type} (P Q1 Q : World -> Prop) (m : Prog A)
  (k : A -> Prog B) :
  ensures P m Q1 -> (forall a, ensures Q1 (k a) Q) -> ensures P (bind m k) Q.
Proof.
  intros Hm Hk w b w' l Hw E. unfold bind in E.
  destruct (m w) as [a w1 l1 |] eqn:E1; [| discriminate].
  destruct (k a w1) as [b' w2 l2 |] eqn:E2; [| discriminate].
  injection E as <- <- <-.
  eapply Hk; [eapply Hm; [exact Hw | exact E1] | exact E2].
Qed.

Lemma ensures_get_bind {A B : Type} (P Q : World -> Prop) (f : World -> A)
  (k : A -> Prog B) :
  (forall v, ensures (fun w => P w /\ f w = v) (k v) Q) ->
  ensures P (bind (get f) k) Q.
Proof.
  intros Hk w b w' l Hw E. unfold bind, get in E.
  destruct (k (f w) w) as [b' w2 l2 |] eqn:E2; [| discriminate].
  injection E as <- <- <-.
  eapply (Hk (f w)); [split; [exact Hw | reflexivity] | exact E2].
Qed.

Lemma ensures_deref_bind {B : Type} (P Q : World -> Prop)
  (f : World -> option nat) (k : nat -> Prog B) :
  (forall i, ensures (fun w => P w /\ f w = Some i) (k i) Q) ->
  ensures P (bind (deref f) k) Q.
Proof.
  intros Hk w b w' l Hw E. unfold bind, deref in E.
  destruct (f w) as [i |] eqn:Ef; [| discriminate].
  destruct (k i w) as [b' w2 l2 |] eqn:E2; [| discriminate].
  injection E as <- <- <-.
  eapply (Hk i); [split; [exact Hw | exact Ef] | exact E2].
Qed.

Lemma ensures_emit (P Q : World -> Prop) (e : event) (f : World -> World) :
  (forall w, P w -> Q (f w)) -> ensures P (emit e f) Q.
Proof.
  intros H w a w' l Hw E. unfold emit in E. inversion E; subst. auto.
Qed.

Lemma ensures_modify (P Q : World -> Prop) (f : World -> World) :
  (forall w, P w -> Q (f w)) -> ensures P (modify f) Q.
Proof.
  intros H w a w' l Hw E. unfold modify in E. inversion E; subst. auto.
Qed.

Lemma ensures_ret {A : Type} (P : World -> Prop) (a : A) :
  ensures P (ret a) P.
Proof.
  intros w a' w' l Hw E. unfold ret in E. inversion E; subst. exact Hw.
Qed.

Lemma ensures_any {A : Type} (P : World -> Prop) (m : Prog A) :
  ensures P m (fun _ => True).
Proof. intros w a w' l _ _. exact I. Qed.

Lemma wired_set_materials (f : Material -> Material) M rot w :
  wired M rot w ->
  forall i, material w = Some i ->
  wired (f M) rot (set_materials (update i f) w).
Proof.
  intros (ms & os & p & Em & Hm & Eo & Ho & Hp & Hr) i Hi.
  rewrite Hm in Hi. injection Hi as <-.
  exists ms, os, p. cbn [materials material objects particleOrb set_materials].
  rewrite Em, update_last. repeat split; assumption.
Qed.

Lemma wired_set_rotation (r : R) M rot w :
  wired M rot w ->
  forall o, particleOrb w = Some o ->
  wired M r (set_objects (update o (with_rotation_y r)) w).
Proof.
  intros (ms & os & p & Em & Hm & Eo & Ho & Hp & Hr) o Hi.
  rewrite Ho in Hi. injection Hi as <-.
  exists ms, os, (with_rotation_y r p).
  cbn [materials material objects particleOrb set_objects].
  rewrite Eo, update_last. repeat split; assumption.
Qed.

Lemma uniform_change_ensures (f : Material -> Material) M rot :
  ensures (wired M rot)
          (i <- deref material ;; modify (set_materials (update i f)))
          (wired (f M) rot).
Proof.
  apply ensures_deref_bind. intros i. apply ensures_modify.
  intros w [H Hi]. apply wired_set_materials; assumption.
Qed.

Lemma animate_ensures (t : R) M rot :
  ensures (wired M rot) (animate t) (wired (with_uTime t M) (t * 0.05)).
Proof.
  unfold animate.
  apply ensures_deref_bind. intros i.
  eapply ensures_bind with (Q1 := wired (with_uTime t M) rot).
  { apply ensures_modify. intros w [H Hi].
    apply wired_set_materials; assumption. }
  intros _. apply ensures_deref_bind. intros o.
  eapply ensures_bind with (Q1 := wired (with_uTime t M) (t * 0.05)).
  { apply ensures_modify. intros w [H Ho].
    apply wired_set_rotation with (rot := rot); assumption. }
  intros _. apply ensures_emit. auto.
Qed.

Lemma createParticles_ensures (random : nat -> R) (P : World -> Prop) :
  ensures P (createParticles random) (wired defaultMaterial 0).
Proof.
  unfold createParticles.
  eapply ensures_bind; [apply ensures_any |]. intros _.
  eapply ensures_bind; [apply ensures_any |]. intros _.
  eapply ensures_bind; [apply ensures_any |]. intros b.
  eapply ensures_bind; [apply ensures_any |]. intros _.
  eapply ensures_bind; [apply ensures_any |]. intros _.
  eapply ensures_bind; [apply ensures_any |]. intros _.
  eapply ensures_bind
    with (Q1 := fun w => exists ms,
                    materials w = ms ++ [defaultMaterial]
                    /\ material w = Some (List.length ms)).
  { unfold new_ShaderMaterial. apply ensures_get_bind. intros ms.
    apply ensures_emit. intros w [_ E]. exists ms.
    cbn [materials material set_material set_materials].
    rewrite E. split; reflexivity. }
  intros _.
  eapply ensures_bind with (Q1 := wired defaultMaterial 0).
  { unfold new_Points.
    apply ensures_deref_bind. intros g.
    apply ensures_deref_bind. intros m.
    apply ensures_get_bind. intros os.
    apply ensures_emit.
    intros w [[[(ms & Em & Hm) _] Hm'] Eo].
    rewrite Hm in Hm'. injection Hm' as <-.
    exists ms, os. eexists.
    cbn [materials material objects particleOrb set_particleOrb set_objects
         p_material rotation_y].
    rewrite Eo. repeat split; try assumption; reflexivity. }
  intros _. unfold scene_add.
  apply ensures_deref_bind. intros o. apply ensures_emit.
  intros w [(ms & os & p & H) _]. exists ms, os, p. exact H.
Qed.

(** The material and the rotation a draw call reads, between two
    callbacks. *)
Lemma drawn_wired (M : Material) (rot : R) (w : World) :
  Settled w -> wired M rot w ->
  drawnMaterials w = [Some M] /\ drawnRotations w = [Some rot].
Proof.
  intros (n & k & g & m & o & G & [H _])
         (ms & os & p & Em & Hm & Eo & Ho & Hp & Hr).
  pose proof (st_orb _ _ _ _ _ _ _ H) as Ho'.
  rewrite Ho in Ho'. injection Ho' as <-.
  unfold drawnMaterials, drawnRotations, materialOf.
  rewrite (st_scene _ _ _ _ _ _ _ H). cbn [map].
  rewrite Eo, nth_error_last, Hp, Em, nth_error_last. cbn [option_map].
  rewrite Hr. split; reflexivity.
Qed.

Section RunsLeaveBehind.

Variable random : nat -> R.

Lemma handle_ensures (c : callback) :
  ensures (fun w => exists M rot, wired M rot w) (handle random c)
          (fun w => exists M rot, wired M rot w).
Proof.
  intros w a w' l (M & rot & H) E.
  destruct c; cbn [handle] in E.
  - exists (with_uTime elapsedTime M), (elapsedTime * 0.05).
    eapply animate_ensures; [exact H | exact E].
  - unfold modify in E. inversion E; subst. exists M, rot. exact H.
  - unfold modify in E. inversion E; subst. exists M, rot. exact H.
  - exists defaultMaterial, 0.
    eapply (ensures_bind (fun _ => True) (fun _ => True));
      [apply ensures_any | intros ?; apply createParticles_ensures
       | exact I | exact E].
  - eexists _, rot. eapply uniform_change_ensures; [exact H | exact E].
  - eexists _, rot. eapply uniform_change_ensures; [exact H | exact E].
  - eexists _, rot. eapply uniform_change_ensures; [exact H | exact E].
  - eexists _, rot. eapply uniform_change_ensures; [exact H | exact E].
Qed.

Lemma handleAll_ensures (cs : list callback) :
  ensures (fun w => exists M rot, wired M rot w) (handleAll random cs)
          (fun w => exists M rot, wired M rot w).
Proof.
  induction cs as [| c cs IH]; cbn [handleAll].
  - apply ensures_ret.
  - eapply ensures_bind; [apply handle_ensures | intros _; exact IH].
Qed.

(** After the script and any callbacks: the world is between two
    callbacks, and the one object in the scene uses the material the
    global [material] refers to. *)
Lemma run_wired (t : R) (cs : list callback) :
  exists w l M rot,
    run random t cs initial = Ok tt w l /\ Settled w /\ wired M rot w
    /\ drawnMaterials w = [Some M] /\ drawnRotations w = [Some rot].
Proof.
  destruct (run_safe random t cs) as (w & l & E & HS & _).
  assert (HW : exists M rot, wired M rot w).
  { assert (T : ensures (fun _ => True) (run random t cs)
                        (fun w => exists M rot, wired M rot w)).
    { unfold run.
      eapply ensures_bind; [apply createParticles_ensures |]. intros ?.
      eapply ensures_bind
        with (Q1 := fun w => exists M rot, wired M rot w).
      - intros w0 a' w1 l1 H0 E0. do 2 eexists.
        eapply animate_ensures; [exact H0 | exact E0].
      - intros ?. apply handleAll_ensures. }
    eapply T; [exact I | exact E]. }
  destruct HW as (M & rot & HW).
  exists w, l, M, rot.
  split; [exact E |]. split; [exact HS |]. split; [exact HW |].
  apply drawn_wired; assumption.
Qed.

End RunsLeaveBehind.

Lemma animate_log (t : R) (w w' : World) (l : list entry) :
  animate t w = Ok tt w' l -> l = [(Render, w')].
Proof.
  unfold animate, bind, deref, modify, emit.
  destruct (material w); [| discriminate]. cbn.
  destruct (particleOrb w); [| discriminate]. cbn.
  intros E. inversion E. reflexivity.
Qed.

Section DrawnUniforms.

Variable random : nat -> R.

Lemma uniform_change_drawn (f : Material -> Material) (M : Material)
  (rot : R) (w : World) :
  Settled w -> wired M rot w ->
  exists w',
    (i <- deref material ;; modify (set_materials (update i f))) w
    = Ok tt w' []
    /\ drawnMaterials w' = [Some (f M)]
    /\ drawnRotations w' = [Some rot].
Proof.
  intros (n & k & g & m & o & G & H) HW.
  destruct (uniform_change_triple f n k g m o G w H)
    as ([] & w' & l' & E & H' & Hev & _).
  apply map_eq_nil in Hev. subst l'.
  exists w'. split; [exact E |].
  apply drawn_wired.
  - eapply Settled_intro, H'.
  - eapply uniform_change_ensures; [exact HW | exact E].
Qed.

(** X17. After the script and any callbacks, a change of the interaction
    radius, of the repulsion strength or of one of the two colours in the
    control panel sets that uniform, and no other, of the very material the
    draw call uses; it logs no event and leaves the rotation alone. *)
Theorem panel_changes_reach_uniforms (t : R) (cs : list callback) :
  exists w l M rot,
    run random t cs initial = Ok tt w l
    /\ drawnMaterials w = [Some M] /\ drawnRotations w = [Some rot]
    /\ (forall r, exists w',
          handle random (InteractionRadiusChange r) w = Ok tt w' []
          /\ drawnMaterials w' = [Some (with_uInteractionRadius r M)]
          /\ drawnRotations w' = [Some rot])
    /\ (forall r, exists w',
          handle random (RepulsionStrengthChange r) w = Ok tt w' []
          /\ drawnMaterials w' = [Some (with_uRepulsionStrength r M)]
          /\ drawnRotations w' = [Some rot])
    /\ (forall c, exists w',
          handle random (Color1Change c) w = Ok tt w' []
          /\ drawnMaterials w' = [Some (with_uColor1 c M)]
          /\ drawnRotations w' = [Some rot])
    /\ (forall c, exists w',
          handle random (Color2Change c) w = Ok tt w' []
          /\ drawnMaterials w' = [Some (with_uColor2 c M)]
          /\ drawnRotations w' = [Some rot]).
Proof.
  destruct (run_wired random t cs)
    as (w & l & M & rot & E & HS & HW & HM & HR).
  exists w, l, M, rot.
  split; [exact E |]. split; [exact HM |]. split; [exact HR |].
  repeat split; intros x; cbn [handle]; apply uniform_change_drawn; assumption.
Qed.

(** X18. A change of the particle count, after any run and so after any
    changes made in the control panel, leaves the draw call with a new
    material that has the built-in values again (time 0, radius 0.8,
    strength 0.5, the two built-in colours), and with an unrotated orb. *)
Theorem regeneration_resets_uniforms (t : R) (cs : list callback) (n : Z) :
  exists w l w' l',
    run random t cs initial = Ok tt w l
    /\ handle random (ParticleCountChange n) w = Ok tt w' l'
    /\ drawnMaterials w' = [Some defaultMaterial]
    /\ drawnRotations w' = [Some 0]
    /\ material w' <> material w.
Proof.
  destruct (run_safe random t cs)
    as (w & l & E & (n0 & k & g & m & o & G & H) & _).
  destruct (particleCountChange_triple random n _ _ _ _ _ _ w H)
    as ([] & w' & l' & E' & H' & _ & _).
  exists w, l, w', l'.
  split; [exact E |]. split; [exact E' |].
  assert (HW : wired defaultMaterial 0 w').
  { cbn [handle] in E'.
    eapply (ensures_bind (fun _ => True) (fun _ => True));
      [apply ensures_any | intros ?; apply (createParticles_ensures random)
       | exact I | exact E']. }
  destruct (drawn_wired _ _ _ (Settled_intro _ _ _ _ _ _ _ H') HW) as [HM HR].
  split; [exact HM |]. split; [exact HR |].
  destruct H as [H _]. destruct H' as [H' _].
  rewrite (st_material _ _ _ _ _ _ _ H), (st_material _ _ _ _ _ _ _ H').
  intros Heq. injection Heq as Heq. lia.
Qed.

(** X19. An animation frame at elapsed time [t'], after any run, sets the
    time uniform of the material the draw call uses to [t'] and the
    rotation of the orb to [0.05 * t'] before it renders: the one draw call
    of the frame sees both. *)
Theorem frame_updates_time_and_rotation (t : R) (cs : list callback) :
  exists w l M,
    run random t cs initial = Ok tt w l
    /\ drawnMaterials w = [Some M]
    /\ forall t', exists w',
         handle random (Frame t') w = Ok tt w' [(Render, w')]
         /\ drawnMaterials w' = [Some (with_uTime t' M)]
         /\ drawnRotations w' = [Some (0.05 * t')].
Proof.
  destruct (run_wired random t cs)
    as (w & l & M & rot & E & HS & HW & HM & _).
  exists w, l, M.
  split; [exact E |]. split; [exact HM |].
  intros t'. destruct HS as (n & k & g & m & o & G & H).
  destruct (animate_triple t' n k g m o G w H)
    as ([] & w' & l' & E' & H' & _ & _).
  pose proof (animate_log t' w w' l' E') as ->.
  exists w'. cbn [handle]. split; [exact E' |].
  replace (0.05 * t') with (t' * 0.05) by lra.
  apply drawn_wired.
  - eapply Settled_intro, H'.
  - eapply animate_ensures; [exact HW | exact E'].
Qed.

End DrawnUniforms.

(** ** Where the rendered position is finite *)

Lemma fdiv_None_r (a : float) : (a / None)%fl = None.
Proof. destruct a; reflexivity. Qed.

Lemma direction_without_distance (u : Uniforms) (a : Attributes) :
  distance u a = None -> direction u a = Vec2 None None.
Proof.
  intros H. unfold direction, normalize.
  change (length (vsub2 (screenXY u a) (vec2_of (uMouse u))))
    with (distance u a).
  rewrite H, !fdiv_None_r. reflexivity.
Qed.

Lemma no_direction_no_position (u : Uniforms) (a : Attributes) :
  direction u a = Vec2 None None ->
  gl_Position (vertexShader u a) = Vec4 None None None None
  /\ gl_PointSize (vertexShader u a) = None.
Proof.
  intros Hdir.
  assert (Hrep : repulsion u a = Vec2 None None)
    by (unfold repulsion; rewrite Hdir; reflexivity).
  assert (Hfin : finalPosition u a = Vec3 None None (z3 (finalPosition u a))).
  { unfold finalPosition, breathe, repelledPosition. rewrite Hrep. reflexivity. }
  unfold vertexShader, modelViewPosition. cbn [gl_Position gl_PointSize].
  rewrite Hfin. split; reflexivity.
Qed.

Lemma distance_zero_at_cursor (u : Uniforms) (a : Attributes) :
  distance u a = fin 0 -> screenXY u a = vec2_of (uMouse u).
Proof.
  intros H.
  destruct (screenXY_of_distance u a 0 H) as (sx & sy & E & Hd).
  symmetry in Hd. apply sqrt_eq_0 in Hd.
  - pose proof (Rle_0_sqr (sx - rx2 (uMouse u))) as H1.
    pose proof (Rle_0_sqr (sy - ry2 (uMouse u))) as H2.
    unfold Rsqr in H1, H2.
    assert (Hx : sx = rx2 (uMouse u)) by nra.
    assert (Hy : sy = ry2 (uMouse u)) by nra.
    rewrite E, Hx, Hy. reflexivity.
  - pose proof (Rle_0_sqr (sx - rx2 (uMouse u))) as H1.
    pose proof (Rle_0_sqr (sy - ry2 (uMouse u))) as H2.
    unfold Rsqr in H1, H2. lra.
Qed.

(** X20. The clip-space position of a particle is finite exactly when the
    distance between its projection and the cursor is a finite number
    greater than 0; in every other case (the projection is on the cursor,
    or the projection itself is not finite) no component of [gl_Position]
    is finite, and neither is the point size. *)
Theorem position_finite_iff (u : Uniforms) (a : Attributes) :
  ((exists px py pz pw,
       gl_Position (vertexShader u a) = Vec4 (fin px) (fin py) (fin pz) (fin pw))
   <-> exists d, distance u a = fin d /\ 0 < d)
  /\ ((forall d, distance u a = fin d -> d <= 0) ->
      gl_Position (vertexShader u a) = Vec4 None None None None
      /\ gl_PointSize (vertexShader u a) = None).
Proof.
  assert (Hbad : (forall d, distance u a = fin d -> d <= 0) ->
                 gl_Position (vertexShader u a) = Vec4 None None None None
                 /\ gl_PointSize (vertexShader u a) = None).
  { intros Hno. apply no_direction_no_position.
    destruct (distance u a) as [d |] eqn:Hd.
    - pose proof (distance_nonneg u a d Hd) as H0.
      pose proof (Hno d eq_refl) as H1.
      assert (d = 0) by lra. subst d.
      apply direction_at_cursor, distance_zero_at_cursor, Hd.
    - apply direction_without_distance, Hd. }
  split; [| exact Hbad].
  split.
  - intros (px & py & pz & pw & Hp).
    destruct (distance u a) as [d |] eqn:Hd.
    + destruct (Rlt_dec 0 d) as [Hpos | Hnp]; [exists d; auto |].
      exfalso.
      assert (Hno : forall d', fin d = fin d' -> d' <= 0).
      { intros d' Heq. injection Heq as <-. lra. }
      destruct (Hbad Hno) as [Hnone _]. rewrite Hnone in Hp. discriminate.
    + exfalso.
      destruct Hbad as [Hnone _]; [intros d' Heq; discriminate |].
      rewrite Hnone in Hp. discriminate.
  - intros (d & Hd & Hpos).
    destruct (repulsion_of_distance u a d Hd Hpos)
      as (sx & sy & dx & dy & _ & _ & _ & _ & _ & _ & Hrep).
    unfold vertexShader, modelViewPosition. cbn [gl_Position].
    rewrite (repelled_of_repulsion u a _ _ Hrep).
    unfold vec4_of. cbn [x3 y3 z3].
    rewrite mat_vec_fin, mat_vec_fin. do 4 eexists. reflexivity.
Qed.

Lemma position_finite_iff_witness :
  (forall d,
      distance (centredFrame 0 0.8 0.5 (RVec3 1 0 0.5) (RVec3 0 1 1) 1 1 0 0 0)
               (centreParticle 0) = fin d -> d <= 0)
  /\ gl_PointSize
       (vertexShader
          (centredFrame 0 0.8 0.5 (RVec3 1 0 0.5) (RVec3 0 1 1) 1 1 0 0 0)
          (centreParticle 0)) = None.
Proof.
  assert (H : forall d,
             distance (centredFrame 0 0.8 0.5 (RVec3 1 0 0.5) (RVec3 0 1 1)
                         1 1 0 0 0) (centreParticle 0) = fin d -> d <= 0).
  { intros d Hd. rewrite distance_at_cursor in Hd.
    - injection Hd as <-. lra.
    - erewrite screenXY_fin by (apply centre_screenPos || lra).
      unfold vec2_of, fin. simpl. f_equal; f_equal; lra. }
  split; [exact H |].
  apply (position_finite_iff _ _), H.
Defined.

(** ** Start-up *)

(** X21. At start-up the script, before its first draw call, builds one
    field of 100000 particles from the first 400000 draws of
    [Math.random()]; the first frame then makes exactly one draw call, and
    the time uniform it sees is the elapsed time of that frame. *)
Theorem startup_builds_then_draws (random : nat -> R) (t : R) :
  exists w l,
    run random t [] initial = Ok tt w l
    /\ map fst l
       = [GeometryNew 0; AttributeSet 0 "position";
          AttributeSet 0 "restingPosition"; AttributeSet 0 "aRandom";
          MaterialNew 0; PointsNew 0 0 0; SceneAdd 0; Render]
    /\ generatedField random (Z.to_nat 100000) 0 w
    /\ randomCalls w = (4 * Z.to_nat 100000)%nat
    /\ drawnMaterials w = [Some (with_uTime t defaultMaterial)]
    /\ scene w = [0%nat].
Proof.
  destruct (createParticles_first random 100000 0 0 0 0 initial initial_cleared)
    as ([] & w1 & l1 & E1 & H1 & Hev1 & _).
  destruct (animate_triple t _ _ _ _ _ _ w1 H1)
    as ([] & w2 & l2 & E2 & H2 & Hev2 & _).
  exists w2, (l1 ++ l2 ++ []).
  assert (E : run random t [] initial = Ok tt w2 (l1 ++ l2 ++ [])).
  { unfold run, bind. rewrite E1, E2. reflexivity. }
  split; [exact E |].
  split.
  { rewrite app_nil_r. etransitivity; [apply map_app |].
    exact (f_equal2 (@app event) Hev1 Hev2). }
  split; [exact (settled_generated random 100000 _ 0 0 0 0 w2 H2) |].
  destruct H2 as [H2 HG].
  split; [rewrite (st_calls _ _ _ _ _ _ _ H2); apply Nat.add_0_l |].
  split.
  - assert (HW1 : wired defaultMaterial 0 w1).
    { eapply (createParticles_ensures random (fun _ => True));
        [exact I | exact E1]. }
    assert (HW2 : wired (with_uTime t defaultMaterial) (t * 0.05) w2).
    { eapply animate_ensures; [exact HW1 | exact E2]. }
    apply (drawn_wired _ _ _
             (Settled_intro _ _ _ _ _ _ _ (conj H2 HG)) HW2).
  - exact (st_scene _ _ _ _ _ _ _ H2).
Qed.

(** * Float32 storage *)

(** ** Rounding to the nearest integer *)

Lemma Int_part_bounds (t : R) : IZR (Int_part t) <= t < IZR (Int_part t) + 1.
Proof. pose proof (base_Int_part t) as [H1 H2]. lra. Qed.

Lemma nearestEven_error (t : R) : Rabs (IZR (nearestEven t) - t) <= / 2.
Proof.
  unfold nearestEven. pose proof (Int_part_bounds t) as [H1 H2].
  destruct (Rlt_dec (t - IZR (Int_part t)) (/ 2)) as [Hlt | Hge].
  - apply Rabs_le. lra.
  - destruct (Rlt_dec (/ 2) (t - IZR (Int_part t))) as [Hgt | Hle].
    + rewrite plus_IZR. apply Rabs_le. lra.
    + destruct (Z.even (Int_part t)).
      * apply Rabs_le. lra.
      * rewrite plus_IZR. apply Rabs_le. lra.
Qed.

Lemma Int_part_at (t : R) (m : Z) : IZR m <= t < IZR m + 1 -> Int_part t = m.
Proof. intros H. symmetry. apply Int_part_spec. lra. Qed.


Lemma nearestEven_up_to_even (t : R) (m : Z) :
  IZR m - / 2 <= t < IZR m -> Z.even m = true -> nearestEven t = m.
Proof.
  intros [Hl Hu] Hev. unfold nearestEven.
  assert (E : Int_part t = (m - 1)%Z)
    by (apply Int_part_at; rewrite minus_IZR; lra).
  rewrite E. rewrite minus_IZR.
  destruct (Rlt_dec (t - (IZR m - 1)) (/ 2)); [lra |].
  destruct (Rlt_dec (/ 2) (t - (IZR m - 1))); [lia |].
  replace (Z.even (m - 1)) with false; [lia |].
  rewrite Z.even_sub, Hev. reflexivity.
Qed.

Lemma nearestEven_between (t : R) (a b : Z) :
  IZR a <= t <= IZR b -> (a <= nearestEven t <= b)%Z.
Proof.
  intros [Ha Hb]. pose proof (Int_part_bounds t) as [H1 H2].
  assert (Hn : (a <= Int_part t <= b)%Z).
  { split.
    - apply Z.lt_succ_r. apply lt_IZR. rewrite succ_IZR. lra.
    - apply le_IZR. lra. }
  assert (Hup : / 2 <= t - IZR (Int_part t) -> (Int_part t + 1 <= b)%Z).
  { intros Hf. apply Z.le_succ_l. apply lt_IZR. lra. }
  unfold nearestEven.
  destruct (Rlt_dec (t - IZR (Int_part t)) (/ 2)) as [Hlt | Hge]; [lia |].
  assert (Hf : / 2 <= t - IZR (Int_part t)) by lra.
  specialize (Hup Hf).
  destruct (Rlt_dec (/ 2) (t - IZR (Int_part t))); [lia |].
  destruct (Z.even (Int_part t)); lia.
Qed.

(** ** Powers of two *)

Lemma pow2_ge_1 (n : nat) : 1 <= 2 ^ n.
Proof. apply pow_R1_Rle. lra. Qed.

Lemma powerRZ2_pos (e : Z) : 0 < powerRZ 2 e.
Proof. apply powerRZ_lt. lra. Qed.

Lemma powerRZ2_nonneg_exponent (e : Z) :
  (0 <= e)%Z -> powerRZ 2 e = IZR (2 ^ e) /\ 1 <= powerRZ 2 e.
Proof.
  intros He. rewrite <- (Z2Nat.id e He), <- pow_powerRZ. split.
  - apply (pow_IZR 2).
  - apply pow2_ge_1.
Qed.

Lemma powerRZ2_mono (e1 e2 : Z) :
  (e1 <= e2)%Z -> powerRZ 2 e1 <= powerRZ 2 e2.
Proof.
  intros H. replace e2 with (e1 + (e2 - e1))%Z by lia.
  rewrite powerRZ_add by lra.
  destruct (powerRZ2_nonneg_exponent (e2 - e1)) as [_ H1]; [lia |].
  pose proof (powerRZ2_pos e1). nra.
Qed.

Lemma powerRZ2_inverse (e : Z) : powerRZ 2 e * powerRZ 2 (- e) = 1.
Proof.
  rewrite <- powerRZ_add by lra. rewrite Z.add_opp_diag_r. reflexivity.
Qed.

(** ** The exponent *)

Lemma ln2_pos : 0 < ln 2.
Proof. pose proof ln_lt_2. lra. Qed.


Lemma log2_ratio (a : R) : ln a / ln 2 * ln 2 = ln a.
Proof. pose proof ln2_pos. field. lra. Qed.

Lemma ln_powerRZ2 (k : Z) : ln (powerRZ 2 k) = IZR k * ln 2.
Proof.
  destruct k as [| p | p]; simpl.
  - rewrite ln_1. ring.
  - rewrite ln_pow by lra. rewrite INR_IZR_INZ, positive_nat_Z. reflexivity.
  - rewrite ln_Rinv by (apply pow_lt; lra).
    rewrite ln_pow by lra. rewrite INR_IZR_INZ, positive_nat_Z.
    change (IZR (Z.neg p)) with (IZR (- Z.pos p)). rewrite opp_IZR. ring.
Qed.

Lemma log2_below (a : R) (k : Z) :
  0 < a -> a < powerRZ 2 k -> ln a / ln 2 < IZR k.
Proof.
  intros Ha Hk. pose proof ln2_pos as H2. pose proof (log2_ratio a) as Hq.
  pose proof (ln_increasing a (powerRZ 2 k) Ha Hk) as Hl.
  rewrite ln_powerRZ2 in Hl. nra.
Qed.

Lemma log2_above (a : R) (k : Z) :
  powerRZ 2 k <= a -> IZR k <= ln a / ln 2.
Proof.
  intros Hk. pose proof ln2_pos as H2. pose proof (log2_ratio a) as Hq.
  pose proof (powerRZ2_pos k) as Hp.
  assert (Hl : IZR k * ln 2 <= ln a).
  { rewrite <- ln_powerRZ2. destruct Hk as [Hlt | <-]; [| lra].
    left. apply ln_increasing; assumption. }
  nra.
Qed.

(** In the binade of [2 ^ e]. *)
Lemma exponent32_binade (x : R) (e : Z) :
  (-126 <= e)%Z -> powerRZ 2 e <= Rabs x < powerRZ 2 (e + 1) ->
  exponent32 x = e.
Proof.
  intros He [Hl Hu]. unfold exponent32.
  pose proof (powerRZ2_pos e) as Hp.
  rewrite (Int_part_at _ e); [lia |].
  split; [apply log2_above; exact Hl |].
  rewrite <- plus_IZR. apply log2_below; [lra | exact Hu].
Qed.

(** Below [2 ^ k]. *)
Lemma exponent32_less (x : R) (k : Z) :
  (-125 <= k)%Z -> x <> 0 -> Rabs x < powerRZ 2 k ->
  (-126 <= exponent32 x <= k - 1)%Z.
Proof.
  intros Hk Hx Hu. unfold exponent32.
  assert (Ha : 0 < Rabs x) by (apply Rabs_pos_lt; exact Hx).
  pose proof (log2_below _ k Ha Hu) as Hq.
  pose proof (Int_part_bounds (ln (Rabs x) / ln 2)) as [H1 _].
  assert (Int_part (ln (Rabs x) / ln 2) < k)%Z by (apply lt_IZR; lra).
  lia.
Qed.

Lemma Rabs_le_bounds (a b : R) : Rabs a <= b -> - b <= a <= b.
Proof. unfold Rabs. destruct (Rcase_abs a); lra. Qed.

(** ** Rounding to float32 *)

Lemma ulp32_pos (x : R) : 0 < ulp32 x.
Proof. apply powerRZ2_pos. Qed.

Lemma fround_zero : fround 0 = fin 0.
Proof. unfold fround. destruct (Req_dec_T 0 0); [reflexivity | contradiction]. Qed.

Lemma powerRZ2_128 : 4 <= powerRZ 2 128.
Proof.
  replace 4 with (powerRZ 2 2) by (simpl; lra).
  apply powerRZ2_mono. lia.
Qed.

(** The value [fround] takes when the rounded number is in range. *)
Lemma fround_value (x : R) :
  x <> 0 ->
  Rabs (IZR (nearestEven (x / ulp32 x)) * ulp32 x) < 4 ->
  fround x = fin (IZR (nearestEven (x / ulp32 x)) * ulp32 x).
Proof.
  intros Hx Hy. unfold fround. pose proof powerRZ2_128.
  destruct (Req_dec_T x 0); [contradiction |]. cbv zeta.
  destruct (Rlt_dec _ (powerRZ 2 128)); [reflexivity | lra].
Qed.

Lemma rounded_error (x : R) :
  Rabs (IZR (nearestEven (x / ulp32 x)) * ulp32 x - x) <= ulp32 x / 2.
Proof.
  pose proof (ulp32_pos x) as Hu.
  pose proof (nearestEven_error (x / ulp32 x)) as He.
  replace (IZR (nearestEven (x / ulp32 x)) * ulp32 x - x)
    with ((IZR (nearestEven (x / ulp32 x)) - x / ulp32 x) * ulp32 x)
    by (field; lra).
  rewrite Rabs_mult, (Rabs_pos_eq (ulp32 x)) by lra. nra.
Qed.

(** Below 2 in magnitude, storage moves a number by at most [2 ^ -24]. *)
Lemma fround_error (x : R) :
  Rabs x < 2 ->
  exists y, fround x = fin y /\ Rabs (y - x) <= powerRZ 2 (-24).
Proof.
  intros Hx. destruct (Req_dec_T x 0) as [-> | Hne].
  - exists 0. split; [apply fround_zero |].
    rewrite Rminus_diag, Rabs_R0. left. apply powerRZ2_pos.
  - assert (He : (-126 <= exponent32 x <= 0)%Z).
    { apply (exponent32_less x 1); [lia | exact Hne |]. simpl. lra. }
    assert (Hu : ulp32 x / 2 <= powerRZ 2 (-24)).
    { replace (powerRZ 2 (-24)) with (powerRZ 2 (-23) / 2) by (simpl; lra).
      assert (Hm : powerRZ 2 (exponent32 x - 23) <= powerRZ 2 (-23))
        by (apply powerRZ2_mono; lia).
      unfold ulp32. lra. }
    pose proof (rounded_error x) as Herr.
    assert (Hs : powerRZ 2 (-24) < 1) by (simpl; lra).
    eexists. split.
    + apply fround_value; [exact Hne |].
      apply Rabs_def2 in Hx.
      pose proof (Rabs_le_bounds _ _ (Rle_trans _ _ _ Herr Hu)) as Hb.
      apply Rabs_def1; lra.
    + lra.
Qed.

(** Storage never crosses a float32 number: a bound that is a multiple of
    [2 ^ -23] and holds of [x] holds of what is stored for [x], and the
    sign is kept. *)
Lemma fround_bounded (x : R) (c : Z) :
  Rabs x < 2 -> Rabs x <= IZR c * powerRZ 2 (-23) ->
  exists y,
    fround x = fin y /\ Rabs y <= IZR c * powerRZ 2 (-23)
    /\ (0 <= x -> 0 <= y) /\ Rabs (y - x) <= powerRZ 2 (-24).
Proof.
  intros Hx Hc.
  destruct (fround_error x Hx) as (y & Hy & Herr).
  exists y. split; [exact Hy |].
  destruct (Req_dec_T x 0) as [-> | Hne].
  { rewrite fround_zero in Hy. injection Hy as <-.
    rewrite Rabs_R0 in *. repeat split; lra. }
  assert (He : (-126 <= exponent32 x <= 0)%Z).
  { apply (exponent32_less x 1); [lia | exact Hne |]. simpl. lra. }
  set (e := exponent32 x) in *.
  assert (Hval : y = IZR (nearestEven (x / ulp32 x)) * ulp32 x).
  { unfold fround in Hy. destruct (Req_dec_T x 0); [contradiction |].
    cbv zeta in Hy. destruct (Rlt_dec _ (powerRZ 2 128)); [| discriminate].
    injection Hy as <-. reflexivity. }
  pose proof (ulp32_pos x) as Hu. unfold ulp32 in *. fold e in Hval, Hu.
  set (u := powerRZ 2 (e - 23)) in *.
  destruct (powerRZ2_nonneg_exponent (- e)) as [Hpow _]; [lia |].
  assert (HN : IZR (c * 2 ^ (- e)) * u = IZR c * powerRZ 2 (-23)).
  { rewrite mult_IZR, <- Hpow. unfold u.
    rewrite Rmult_assoc, <- powerRZ_add by lra.
    replace (- e + (e - 23))%Z with (-23)%Z by lia. reflexivity. }
  set (N := (c * 2 ^ (- e))%Z) in *.
  apply Rabs_le_bounds in Hc.
  assert (Ht : IZR (- N) <= x / u <= IZR N).
  { rewrite opp_IZR. split.
    - apply (Rmult_le_reg_r u); [exact Hu |].
      unfold Rdiv. rewrite Rmult_assoc, Rinv_l by lra. lra.
    - apply (Rmult_le_reg_r u); [exact Hu |].
      unfold Rdiv. rewrite Rmult_assoc, Rinv_l by lra. lra. }
  pose proof (nearestEven_between _ _ _ Ht) as [Hn1 Hn2].
  apply IZR_le in Hn1, Hn2. rewrite opp_IZR in Hn1.
  split; [| split; [| exact Herr]].
  - rewrite Hval. apply Rabs_le. split; nra.
  - intros H0.
    assert (Ht0 : IZR 0 <= x / u <= IZR N).
    { split; [| apply Ht]. apply Rmult_le_pos; [exact H0 |].
      left. apply Rinv_0_lt_compat. exact Hu. }
    pose proof (nearestEven_between _ _ _ Ht0) as [Hn0 _].
    apply IZR_le in Hn0. rewrite Hval. nra.
Qed.

(** A number in [0, 1] is stored as a number in [0, 1]. *)
Lemma fround_unit (x : R) :
  0 <= x <= 1 -> exists y, fround x = fin y /\ 0 <= y <= 1.
Proof.
  intros Hx.
  assert (E : IZR (2 ^ 23) * powerRZ 2 (-23) = 1) by (simpl; lra).
  destruct (fround_bounded x (2 ^ 23)) as (y & Hy & Hb & Hs & _).
  - apply Rabs_def1; lra.
  - rewrite E. apply Rabs_le. lra.
  - exists y. split; [exact Hy |]. rewrite E in Hb.
    apply Rabs_le_bounds in Hb. split; [apply Hs |]; lra.
Qed.


(** Every number from [1 - 2 ^ -25] up to 1 is stored as 1. *)
Lemma fround_near_one (x : R) :
  1 - powerRZ 2 (-25) <= x < 1 -> fround x = fin 1.
Proof.
  intros [Hl Hu].
  assert (P25 : powerRZ 2 (-25) = / 33554432) by (simpl; lra).
  assert (P24 : powerRZ 2 (-1 - 23) = / 16777216) by (simpl; lra).
  rewrite P25 in Hl.
  assert (Hx : x <> 0) by lra.
  assert (He : exponent32 x = (-1)%Z).
  { apply exponent32_binade; [lia |].
    rewrite Rabs_pos_eq by lra. simpl. lra. }
  assert (Hn : nearestEven (x / ulp32 x) = 16777216%Z).
  { unfold ulp32. rewrite He, P24. apply nearestEven_up_to_even.
    - unfold Rdiv. rewrite Rinv_inv. lra.
    - reflexivity. }
  rewrite fround_value; [| exact Hx |].
  - rewrite Hn. unfold ulp32. rewrite He, P24. f_equal. lra.
  - rewrite Hn. unfold ulp32. rewrite He, P24.
    replace (16777216 * / 16777216) with 1 by lra.
    rewrite Rabs_R1. lra.
Qed.

(** ** What the attributes store *)

Lemma float32Array_nth (b : BufferAttribute) (j : nat) :
  (j < List.length (array b))%nat ->
  nth j (float32Array b) None = fround (nth j (array b) 0).
Proof.
  intros Hj. unfold float32Array.
  rewrite (nth_indep _ None (fround 0)) by (rewrite length_map; exact Hj).
  apply map_nth.
Qed.


Lemma stored_seed (b : BufferAttribute) (i : nat) :
  itemSize b = 1%nat -> (i < count b)%nat ->
  storedX b i = fround (getX b i).
Proof.
  unfold count, storedX, getX. intros -> Hi.
  rewrite Nat.div_1_r in Hi.
  apply float32Array_nth. lia.
Qed.



(** ** Generated fields as stored *)


Lemma regeneration_built (random : nat -> R) (t : R) (cs : list callback)
  (n : Z) :
  exists w l w' l' k' g m o,
    run random t cs initial = Ok tt w l
    /\ handle random (ParticleCountChange n) w = Ok tt w' l'
    /\ randomCalls w' = (randomCalls w + 4 * Z.to_nat n)%nat
    /\ settled n k' g m o (builtGeometry random (Z.to_nat n) (randomCalls w)) w'.
Proof.
  destruct (run_safe random t cs)
    as (w & l & E & (n0 & k & g & m & o & G & H) & Hl).
  destruct (particleCountChange_triple random n _ _ _ _ _ _ w H)
    as ([] & w' & l' & E' & H' & _ & _).
  exists w, l, w', l'. do 4 eexists.
  destruct H as [H _].
  split; [exact E |]. split; [exact E' |].
  rewrite (st_calls _ _ _ _ _ _ _ H).
  split; [apply H' | exact H'].
Qed.

(** The geometry the globals of a settled world refer to. *)
Lemma settled_geometry n k g m o G w :
  settled n k g m o G w ->
  geometry w = Some g /\ nth_error (geometries w) g = Some G
  /\ drawn w = [Some G].
Proof.
  intros [H _].
  destruct (st_geometry _ _ _ _ _ _ _ H) as (gs & Eg & _ & Hlen & Hg).
  split; [exact Hg |].
  split; [rewrite Eg, <- Hlen; apply nth_error_last |].
  eapply drawn_inScene; exact H.
Qed.


(** ** A particle stored outside the ball *)








(** ** Rest positions and the ball *)




(** ** The draws a generation consumes, and the seeds it stores *)

(** X16. A change of the particle count to [n], after any run, makes
    exactly [4 * n] calls of [Math.random()], all of them after the calls
    made before, so that no draw of an earlier field is used again; the
    seed of particle [i] is the draw [4 * i + 3] of these.  With draws in
    [0, 1) the [aRandom] attribute stores every seed, rounded to float32,
    as a number in [0, 1], and it stores 1 itself for every draw from
    [1 - 2 ^ -25] on. *)
Theorem generation_draws (random : nat -> R) (t : R) (cs : list callback)
  (n : Z) :
  (forall k, 0 <= random k < 1) ->
  exists w l w' l' g G s,
    run random t cs initial = Ok tt w l
    /\ handle random (ParticleCountChange n) w = Ok tt w' l'
    /\ randomCalls w' = (randomCalls w + 4 * Z.to_nat n)%nat
    /\ geometry w' = Some g /\ nth_error (geometries w') g = Some G
    /\ getAttribute "aRandom" G = Some s
    /\ count s = Z.to_nat n
    /\ forall i, (i < count s)%nat ->
         getX s i = random (randomCalls w + 4 * i + 3)%nat
         /\ storedX s i = fround (random (randomCalls w + 4 * i + 3)%nat)
         /\ (exists y, storedX s i = fin y /\ 0 <= y <= 1)
         /\ (1 - powerRZ 2 (-25) <= random (randomCalls w + 4 * i + 3)%nat ->
             storedX s i = fin 1).
Proof.
  intros Hrange.
  destruct (regeneration_built random t cs n)
    as (w & l & w' & l' & k' & g & m & o & E & E' & Hc & H).
  set (N := Z.to_nat n) in *. set (k := randomCalls w) in *.
  destruct (settled_geometry _ _ _ _ _ _ _ H) as (Hg & HG & _).
  destruct (builtGeometry_attributes random N k) as (_ & _ & As).
  exists w, l, w', l', g, (builtGeometry random N k),
    {| array := pushedRandoms random N k; itemSize := 1 |}.
  repeat (split; [assumption |]).
  rewrite count_pushedRandoms.
  split; [reflexivity |].
  intros i Hi.
  destruct (builtGeometry_item random N k i Hi) as [_ Hx].
  assert (Hs : storedX {| array := pushedRandoms random N k; itemSize := 1 |} i
               = fround (random (k + 4 * i + 3)%nat)).
  { rewrite stored_seed;
      [rewrite Hx; reflexivity | reflexivity
       | rewrite count_pushedRandoms; exact Hi]. }
  split; [exact Hx |]. split; [exact Hs |].
  rewrite Hs. pose proof (Hrange (k + 4 * i + 3)%nat) as [H0 H1].
  split.
  - apply fround_unit. lra.
  - intros Hl. apply fround_near_one. split; [exact Hl | exact H1].
Qed.

Lemma generation_draws_witness :
  (forall k : nat, 0 <= (fun _ : nat => / 2) k < 1)
  /\ exists w l w' l',
      run (fun _ => / 2) 0 [] initial = Ok tt w l
      /\ handle (fun _ => / 2) (ParticleCountChange 50000) w = Ok tt w' l'
      /\ randomCalls w' = (randomCalls w + 4 * Z.to_nat 50000)%nat.
Proof.
  assert (H : forall k : nat, 0 <= (fun _ : nat => / 2) k < 1)
    by (intros k; lra).
  split; [exact H |].
  destruct (generation_draws (fun _ => / 2) 0 [] 50000 H)
    as (w & l & w' & l' & g & G & s & E & E' & Hc & _).
  exists w, l, w', l'. auto.
Defined.
